(** * CashVault: recurring-transaction scheduling and budget alerts

    A shallow embedding of [src/lib/inngest/functions.js]:
    the utility functions [isNewMonth], [isTransactionDue] and
    [calculateNextRecurringDate], the database transaction of
    [processRecurringTransaction], the query of
    [triggerRecurringTransactions] and the alert condition of
    [checkBudgetAlerts].

    Conventions of the embedding.
    - A JavaScript [Date] is its time value: milliseconds since the epoch,
      an integer of [Z].  The clipping of time values beyond +-8.64e15 ms
      is not modelled.  The calendar fields follow the
      definitions of ECMA-262 (Day, DayFromYear, YearFromTime,
      MonthFromTime, DateFromTime, MakeDay, MakeDate); local time is UTC
      shifted by a constant offset [LocalTZA].
    - A JavaScript number is an IEEE-754 binary64 float: Rocq's primitive
      [float], whose operations are the same.
    - A Prisma [Decimal] is kept abstract; [toNumber] reads it as a number.
    - What [step.run] returns is the JSON of what its callback returned;
      a Decimal is a string there.
    - Every [new Date()] of one invocation is the same instant [now],
      an argument of the embedded function. *)

From Stdlib Require Import ZArith Lia Bool List String Floats Sorting.Sorted.
Import ListNotations.

Local Open Scope Z_scope.

Ltac Zify.zify_post_hook ::= Z.to_euclidean_division_equations.

(** ** Calendar arithmetic of ECMA-262 (section "Time Values and Time Range") *)

Module Calendar.

Definition msPerDay : Z := 86400000.

Definition Day (t : Z) : Z := t / msPerDay.

Definition TimeWithinDay (t : Z) : Z := t mod msPerDay.

Definition isLeapYear (y : Z) : bool :=
  if negb (y mod 4 =? 0) then false
  else if negb (y mod 100 =? 0) then true
  else if negb (y mod 400 =? 0) then false
  else true.

Definition DaysInYear (y : Z) : Z := if isLeapYear y then 366 else 365.

Definition DayFromYear (y : Z) : Z :=
  365 * (y - 1970) + (y - 1969) / 4 - (y - 1901) / 100 + (y - 1601) / 400.

Definition TimeFromYear (y : Z) : Z := msPerDay * DayFromYear y.

(** The year of day number [d]: the largest [y] with [DayFromYear y <= d].
    An estimate from the mean length of a Gregorian year, off by at most
    one, is corrected against [DayFromYear]. *)
Definition YearFromDay (d : Z) : Z :=
  let y := 1970 + (400 * d) / 146097 in
  if d <? DayFromYear y then y - 1
  else if DayFromYear (y + 1) <=? d then y + 1
  else y.

Definition YearFromTime (t : Z) : Z := YearFromDay (Day t).

Definition InLeapYear (t : Z) : Z :=
  if isLeapYear (YearFromTime t) then 1 else 0.

Definition DayWithinYear (t : Z) : Z :=
  Day t - DayFromYear (YearFromTime t).

(** Month number (0 = January) of the day [dwy] within a year, [leap]
    being 1 in a leap year and 0 otherwise. *)
Definition monthOfYearDay (dwy leap : Z) : Z :=
  if dwy <? 31 then 0
  else if dwy <? 59 + leap then 1
  else if dwy <? 90 + leap then 2
  else if dwy <? 120 + leap then 3
  else if dwy <? 151 + leap then 4
  else if dwy <? 181 + leap then 5
  else if dwy <? 212 + leap then 6
  else if dwy <? 243 + leap then 7
  else if dwy <? 273 + leap then 8
  else if dwy <? 304 + leap then 9
  else if dwy <? 334 + leap then 10
  else 11.

(** Number of days of the year before month [m] starts. *)
Definition daysBeforeMonth (m leap : Z) : Z :=
  if m =? 0 then 0
  else if m =? 1 then 31
  else if m =? 2 then 59 + leap
  else if m =? 3 then 90 + leap
  else if m =? 4 then 120 + leap
  else if m =? 5 then 151 + leap
  else if m =? 6 then 181 + leap
  else if m =? 7 then 212 + leap
  else if m =? 8 then 243 + leap
  else if m =? 9 then 273 + leap
  else if m =? 10 then 304 + leap
  else 334 + leap.

Definition MonthFromTime (t : Z) : Z :=
  monthOfYearDay (DayWithinYear t) (InLeapYear t).

Definition DateFromTime (t : Z) : Z :=
  DayWithinYear t - daysBeforeMonth (MonthFromTime t) (InLeapYear t) + 1.

(** [MakeDay year month date]: the day number of the [date]-th day counted
    from the first of the month [month] of [year]; [month] outside 0..11
    carries into the year and [date] outside the month carries into the
    following days. *)
Definition MakeDay (year month date : Z) : Z :=
  let ym := year + month / 12 in
  let mn := month mod 12 in
  DayFromYear ym + daysBeforeMonth mn (if isLeapYear ym then 1 else 0)
  + date - 1.

Definition MakeDate (day time : Z) : Z := day * msPerDay + time.

(** Length in days of month [m] (0..11) of year [y]. *)
Definition daysInMonth (y m : Z) : Z :=
  if m =? 1 then (if isLeapYear y then 29 else 28)
  else if (m =? 3) || (m =? 5) || (m =? 8) || (m =? 10) then 30
  else 31.


(** Months counted from year 0: the pair (year, month) as one number. *)
Definition monthIndex (t : Z) : Z := 12 * YearFromTime t + MonthFromTime t.

End Calendar.

Import Calendar.

(** ** What the program takes from its platform

    The offset of local time, the Decimal type of the database client with
    its conversion to a number and the database's own addition of a number
    to a Decimal column ([increment]), and the default of the [status]
    column, which the schema declares. *)

Class Runtime := {
  LocalTZA : Z;
  Decimal : Type;
  toNumber : Decimal -> float;
  increment : Decimal -> float -> Decimal;
  defaultStatus : string
}.

(** ** The methods of [Date] the program calls *)

Section JSDate.

Context `{Runtime}.

Definition LocalTime (t : Z) : Z := t + LocalTZA.

Definition UTC (t : Z) : Z := t - LocalTZA.

Definition getFullYear (t : Z) : Z := YearFromTime (LocalTime t).

Definition getMonth (t : Z) : Z := MonthFromTime (LocalTime t).

Definition getDate (t : Z) : Z := DateFromTime (LocalTime t).

Definition setDate (t dt : Z) : Z :=
  let lt := LocalTime t in
  UTC (MakeDate (MakeDay (YearFromTime lt) (MonthFromTime lt) dt)
                (TimeWithinDay lt)).

Definition setMonth (t m : Z) : Z :=
  let lt := LocalTime t in
  UTC (MakeDate (MakeDay (YearFromTime lt) m (DateFromTime lt))
                (TimeWithinDay lt)).

Definition setFullYear (t y : Z) : Z :=
  let lt := LocalTime t in
  UTC (MakeDate (MakeDay y (MonthFromTime lt) (DateFromTime lt))
                (TimeWithinDay lt)).

(** [new Date(v)] for a column that holds a date or [null]: [null] is
    converted to the number 0, the epoch. *)
Definition newDate (v : option Z) : Z :=
  match v with
  | Some t => t
  | None => 0
  end.

(** *** Utility functions of functions.js *)

Definition isNewMonth (lastAlertDate currentDate : Z) : bool :=
  negb (getMonth lastAlertDate =? getMonth currentDate)
  || negb (getFullYear lastAlertDate =? getFullYear currentDate).

(** The [switch] compares the interval with the four names; any other
    value, [null] included, matches no case and [next] is returned as
    copied from [date]. *)
Definition calculateNextRecurringDate (date : Z) (interval : option string)
  : Z :=
  let next := date in
  match interval with
  | Some i =>
      if String.eqb i "DAILY" then setDate next (getDate next + 1)
      else if String.eqb i "WEEKLY" then setDate next (getDate next + 7)
      else if String.eqb i "MONTHLY" then setMonth next (getMonth next + 1)
      else if String.eqb i "YEARLY"
           then setFullYear next (getFullYear next + 1)
      else next
  | None => next
  end.

End JSDate.

(** ** Calendar dates as the specification speaks of them

    A civil date, the day after it, and the addition of a month or a year
    that keeps the day of the month and rolls the days a short month lacks
    over into the following month. *)

Module Civil.

Record date := mk { year : Z; month : Z; day : Z }.

Definition nextDay (c : date) : date :=
  if day c <? daysInMonth (year c) (month c)
  then mk (year c) (month c) (day c + 1)
  else if month c <? 11 then mk (year c) (month c + 1) 1
  else mk (year c + 1) 0 1.

Definition addDays (n : nat) (c : date) : date := Nat.iter n nextDay c.

(** The day [d] of the month [m] of [y], counted on from the last day of
    that month when the month is shorter. *)
Definition overflow (y m d : Z) : date :=
  let len := daysInMonth y m in
  if d <=? len then mk y m d
  else addDays (Z.to_nat (d - len)) (mk y m len).

Definition addMonth (c : date) : date :=
  if month c <? 11 then overflow (year c) (month c + 1) (day c)
  else overflow (year c + 1) 0 (day c).

Definition addYear (c : date) : date :=
  overflow (year c + 1) (month c) (day c).

Definition valid (c : date) : Prop :=
  0 <= month c < 12 /\ 1 <= day c <= daysInMonth (year c) (month c).

(** One unit of a recurrence interval added to a civil date. *)
Definition addInterval (interval : string) (c : date) : date :=
  if String.eqb interval "DAILY" then addDays 1 c
  else if String.eqb interval "WEEKLY" then addDays 7 c
  else if String.eqb interval "MONTHLY" then addMonth c
  else if String.eqb interval "YEARLY" then addYear c
  else c.

End Civil.

(** The civil date of a local time value. *)
Definition fieldsL (lt : Z) : Civil.date :=
  Civil.mk (YearFromTime lt) (MonthFromTime lt) (DateFromTime lt).

(** The interval names that the [switch] of [calculateNextRecurringDate]
    has a case for. *)
Definition intervals : list string :=
  ["DAILY"; "WEEKLY"; "MONTHLY"; "YEARLY"]%string.

Definition wellFormedInterval (interval : option string) : Prop :=
  exists i, interval = Some i /\ In i intervals.

(** ** The database and the two scheduled functions on transactions *)

Section Model.

Context `{Runtime}.

Record Transaction := {
  t_id : string;
  t_type : string;
  t_amount : option Decimal;
  t_description : string;
  t_date : Z;
  t_category : string;
  t_userId : string;
  t_accountId : string;
  t_isRecurring : bool;
  t_recurringInterval : option string;
  t_nextRecurringDate : option Z;
  t_lastProcessed : option Z;
  t_status : string
}.

Record Account := {
  a_id : string;
  a_balance : Decimal
}.

Record Budget := {
  b_id : string;
  b_amount : Decimal;
  b_lastAlertSent : option Z
}.

Record Store := {
  transactions : list Transaction;
  accounts : list Account
}.

(** The payload of a "transaction.recurring.process" event. *)
Record Event := {
  transactionId : string;
  userId : string
}.

(** The civil date and the time of day of an instant, in local time. *)
Definition civilDate (t : Z) : Civil.date :=
  Civil.mk (getFullYear t) (getMonth t) (getDate t).

Definition timeOfDay (t : Z) : Z := TimeWithinDay (LocalTime t).

(** The calendar month of an instant: the pair that [isNewMonth] compares. *)
Definition calendarMonth (t : Z) : Z * Z := (getMonth t, getFullYear t).

(** Months since year 0 of the calendar month of an instant. *)
Definition monthNumber (t : Z) : Z := monthIndex (LocalTime t).

(** *** Database access: a state monad over the store with failure

    [None] is a thrown error; the store it would have left is dropped,
    which is what the enclosing database transaction does. *)

Definition DB (A : Type) : Type := Store -> option (A * Store).

Definition ret {A} (a : A) : DB A := fun s => Some (a, s).

Definition bind {A B} (m : DB A) (k : A -> DB B) : DB B :=
  fun s => match m s with
           | Some (a, s') => k a s'
           | None => None
           end.

Notation "x <- m ;; k" := (bind m (fun x => k))
  (at level 61, m at next level, right associativity).
Notation "m ;;; k" := (bind m (fun _ => k))
  (at level 61, right associativity).

Definition findUnique (tid uid : string) : DB (option Transaction) :=
  fun s =>
    Some (find (fun t => String.eqb (t_id t) tid && String.eqb (t_userId t) uid)
               (transactions s), s).

Definition findMany (where_ : Transaction -> bool) : DB (list Transaction) :=
  fun s => Some (filter where_ (transactions s), s).

(** [create] fails on an identifier already in the table (primary key). *)
Definition createTransaction (t : Transaction) : DB unit :=
  fun s =>
    if existsb (fun u => String.eqb (t_id u) (t_id t)) (transactions s)
    then None
    else Some (tt, {| transactions := transactions s ++ [t];
                      accounts := accounts s |}).

(** [update] of the balance fails when no account has the identifier. *)
Definition incrementBalance (aid : string) (by_ : float) : DB unit :=
  fun s =>
    if existsb (fun a => String.eqb (a_id a) aid) (accounts s)
    then Some (tt, {| transactions := transactions s;
                      accounts :=
                        map (fun a =>
                               if String.eqb (a_id a) aid
                               then {| a_id := a_id a;
                                       a_balance := increment (a_balance a) by_ |}
                               else a)
                            (accounts s) |})
    else None.

Definition markProcessed (lastProcessed nextRecurringDate : Z)
  (t : Transaction) : Transaction :=
  {| t_id := t_id t; t_type := t_type t; t_amount := t_amount t;
     t_description := t_description t; t_date := t_date t;
     t_category := t_category t; t_userId := t_userId t;
     t_accountId := t_accountId t; t_isRecurring := t_isRecurring t;
     t_recurringInterval := t_recurringInterval t;
     t_nextRecurringDate := Some nextRecurringDate;
     t_lastProcessed := Some lastProcessed;
     t_status := t_status t |}.

Definition updateTransaction (tid : string)
  (lastProcessed nextRecurringDate : Z) : DB unit :=
  fun s =>
    if existsb (fun t => String.eqb (t_id t) tid) (transactions s)
    then Some (tt, {| transactions :=
                        map (fun t =>
                               if String.eqb (t_id t) tid
                               then markProcessed lastProcessed
                                      nextRecurringDate t
                               else t)
                            (transactions s);
                      accounts := accounts s |})
    else None.

(** *** processRecurringTransaction *)

Definition isTransactionDue (transaction : Transaction) (now : Z) : bool :=
  match t_lastProcessed transaction with
  | None => true
  | Some _ => newDate (t_nextRecurringDate transaction) <=? now
  end.

Definition amountValue (transaction : Transaction) : float :=
  match t_amount transaction with
  | Some a => toNumber a
  | None => 0%float
  end.

Definition balanceChange (transaction : Transaction) : float :=
  if String.eqb (t_type transaction) "EXPENSE"
  then PrimFloat.opp (amountValue transaction)
  else amountValue transaction.

(** The row that [tx.transaction.create] inserts; the columns the call
    leaves out take the defaults of the schema. *)
Definition recurringEntry (transaction : Transaction) (now : Z)
  (newId : string) : Transaction :=
  {| t_id := newId;
     t_type := t_type transaction;
     t_amount := t_amount transaction;
     t_description := t_description transaction ++ " (Recurring)";
     t_date := now;
     t_category := t_category transaction;
     t_userId := t_userId transaction;
     t_accountId := t_accountId transaction;
     t_isRecurring := false;
     t_recurringInterval := None;
     t_nextRecurringDate := None;
     t_lastProcessed := None;
     t_status := defaultStatus |}.

Definition emptyString (s : string) : bool := String.eqb s EmptyString.

Definition processRecurringTransaction (event : Event) (now : Z)
  (newId : string) : DB unit :=
  if emptyString (transactionId event) || emptyString (userId event)
  then ret tt
  else
    found <- findUnique (transactionId event) (userId event) ;;
    match found with
    | None => ret tt
    | Some transaction =>
        if negb (isTransactionDue transaction now) then ret tt
        else
          createTransaction (recurringEntry transaction now newId) ;;;
          incrementBalance (t_accountId transaction)
                           (balanceChange transaction) ;;;
          updateTransaction (t_id transaction) now
            (calculateNextRecurringDate now
               (t_recurringInterval transaction))
    end.

(** The next dates of a recurrence that starts at [start]: the [k]-th is
    [calculateNextRecurringDate] applied [k] times. *)
Definition occurrence (interval : option string) (start : Z) (k : nat) : Z :=
  Nat.iter k (fun d => calculateNextRecurringDate d interval) start.

(** The store that the three writes of the database transaction leave:
    the new row, the balance moved, the processed row stamped. *)
Definition committed (transaction : Transaction) (now : Z) (newId : string)
  (s : Store) : Store :=
  {| transactions :=
       map (fun t =>
              if String.eqb (t_id t) (t_id transaction)
              then markProcessed now
                     (calculateNextRecurringDate now
                        (t_recurringInterval transaction)) t
              else t)
           (transactions s ++ [recurringEntry transaction now newId]);
     accounts :=
       map (fun a =>
              if String.eqb (a_id a) (t_accountId transaction)
              then {| a_id := a_id a;
                      a_balance := increment (a_balance a)
                                     (balanceChange transaction) |}
              else a)
           (accounts s) |}.

Definition ids (s : Store) : list string := map t_id (transactions s).

(** *** triggerRecurringTransactions *)

(** The [where] clause of the query; a comparison with a [null] column
    selects nothing. *)
Definition dueWhere (now : Z) (t : Transaction) : bool :=
  t_isRecurring t
  && String.eqb (t_status t) "COMPLETED"
  && (match t_lastProcessed t with None => true | Some _ => false end
      || match t_nextRecurringDate t with
         | Some d => d <=? now
         | None => false
         end).

Definition fetchRecurringTransactions (now : Z) : DB (list Transaction) :=
  findMany (dueWhere now).

Definition eventOf (t : Transaction) : Event :=
  {| transactionId := t_id t; userId := t_userId t |}.

(** Returns the events it sends. *)
Definition triggerRecurringTransactions (now : Z) : DB (list Event) :=
  recurringTransactions <- fetchRecurringTransactions now ;;
  ret (map eventOf recurringTransactions).

(** *** The scheduler: what the two functions do to the store over time

    A state is the store and the events sent and not yet processed.  The
    daily trigger adds the events of its query; processing takes any
    pending event, at any instant, with the identifier the database gives
    the new row.  A run that throws leaves the state as it was. *)

Definition Sched : Type := Store * list Event.

Inductive step : Sched -> Sched -> Prop :=
| step_trigger now s q s' events :
    triggerRecurringTransactions now s = Some (events, s') ->
    step (s, q) (s', q ++ events)
| step_process now newId s q1 e q2 s' :
    processRecurringTransaction e now newId s = Some (tt, s') ->
    step (s, q1 ++ e :: q2) (s', q1 ++ q2).

Inductive reachable (s0 : Store) : Sched -> Prop :=
| reach_init : reachable s0 (s0, [])
| reach_step c c' : reachable s0 c -> step c c' -> reachable s0 c'.

(** The invariant of the scheduler, relative to the store [s0] it starts
    from: a recurring row bears an identifier of [s0], the pending events
    name identifiers of [s0], and the rows of [s0] are still there. *)
Definition templatesKept (s0 : Store) (c : Sched) : Prop :=
  (forall t, In t (transactions (fst c)) -> t_isRecurring t = true ->
             In (t_id t) (ids s0))
  /\ (forall e, In e (snd c) -> In (transactionId e) (ids s0))
  /\ (forall i, In i (ids s0) -> In i (ids (fst c))).

(** ** checkBudgetAlerts *)

Definition percentageUsed (budget : Budget) (totalExpenses : float) : float :=
  (totalExpenses / toNumber (b_amount budget) * 100)%float.

(** The condition of the [if]. *)
Definition shouldAlert (budget : Budget) (totalExpenses : float) (now : Z)
  : bool :=
  (80 <=? percentageUsed budget totalExpenses)%float
  && (match b_lastAlertSent budget with
      | None => true
      | Some last => isNewMonth (newDate (Some last)) now
      end).

(** The step of a budget between its two states, no alert sent this month
    and alert sent this month, as the specification describes it: the
    condition of the [if] decides, and an alert that is sent leaves
    [lastAlertSent] at [now].  What the handler itself does once the
    condition holds, where the figures of the mail are set up before
    anything is sent or written, is [serveBudgetCheck] below. *)
Definition evaluateBudget (budget : Budget) (totalExpenses : float) (now : Z)
  : bool * Budget :=
  if shouldAlert budget totalExpenses now
  then (true, {| b_id := b_id budget; b_amount := b_amount budget;
                 b_lastAlertSent := Some now |})
  else (false, budget).

(** Successive checks of one budget, each with the month's expenses and
    the instant of the check; returns the instants at which an alert was
    sent, and the budget at the end. *)
Fixpoint runChecks (budget : Budget) (checks : list (float * Z))
  : list Z * Budget :=
  match checks with
  | [] => ([], budget)
  | (totalExpenses, now) :: rest =>
      let '(fired, budget') := evaluateBudget budget totalExpenses now in
      let '(later, final) := runChecks budget' rest in
      (if fired then now :: later else later, final)
  end.

End Model.

(** A platform to compute examples on: local time is UTC, a Decimal is
    the number it converts to and the database adds as the number type
    does. *)
Definition utcRuntime : Runtime :=
  {| LocalTZA := 0;
     Decimal := float;
     toNumber := fun d => d;
     increment := PrimFloat.add;
     defaultStatus := "COMPLETED" |}.

(** ** The monthly report and the loop of checkBudgetAlerts *)

(** The property names that every JavaScript object inherits.  Read with
    one of them as key, an object without such an entry of its own does
    not give [undefined]; the model of [stats.byCategory] below is the
    object's own entries, and is the object for every other key. *)
Definition objectPrototypeKeys : list string :=
  ["constructor"; "__proto__"; "hasOwnProperty"; "isPrototypeOf";
   "propertyIsEnumerable"; "toLocaleString"; "toString"; "valueOf";
   "__defineGetter__"; "__defineSetter__"; "__lookupGetter__";
   "__lookupSetter__"]%string.

(** What a piece of a handler comes to: it returns a value, or an error is
    thrown. *)
Inductive Outcome (A : Type) : Type :=
| Returns (a : A)
| Throws.

Arguments Returns {A} a.
Arguments Throws {A}.

Section Reports.

Context `{Runtime}.

Notation "x <- m ;; k" := (bind m (fun x => k))
  (at level 61, m at next level, right associativity).

(** Years 0 to 99 given to the [Date] constructor stand for 1900 to 1999. *)
Definition MakeFullYear (y : Z) : Z :=
  if (0 <=? y) && (y <=? 99) then 1900 + y else y.

(** [new Date(year, month, date)]: local midnight of that day. *)
Definition newDateOf (year month date : Z) : Z :=
  UTC (MakeDate (MakeDay (MakeFullYear year) month date) 0).

(** [v || 0] for a number that may be [undefined]: zero, minus zero and
    [NaN] are falsy. *)
Definition orZero (v : option float) : float :=
  match v with
  | Some x => if (x =? 0)%float || is_nan x then 0%float else x
  | None => 0%float
  end.

(** *** getMonthlyStats *)

Record Stats := {
  st_totalExpenses : float;
  st_totalIncome : float;
  st_byCategory : string -> option float;
  st_transactionCount : nat
}.

(** The callback of [reduce]. *)
Definition addToStats (stats : Stats) (t : Transaction) : Stats :=
  let amount := amountValue t in
  if String.eqb (t_type t) "EXPENSE"
  then {| st_totalExpenses := (st_totalExpenses stats + amount)%float;
          st_totalIncome := st_totalIncome stats;
          st_byCategory :=
            fun c =>
              if String.eqb c (t_category t)
              then Some (orZero (st_byCategory stats (t_category t))
                         + amount)%float
              else st_byCategory stats c;
          st_transactionCount := st_transactionCount stats |}
  else {| st_totalExpenses := st_totalExpenses stats;
          st_totalIncome := (st_totalIncome stats + amount)%float;
          st_byCategory := st_byCategory stats;
          st_transactionCount := st_transactionCount stats |}.

Definition reduceStats (rows : list Transaction) : Stats :=
  fold_left addToStats rows
    {| st_totalExpenses := 0%float; st_totalIncome := 0%float;
       st_byCategory := fun _ => None;
       st_transactionCount := List.length rows |}.

Definition monthStart (month : Z) : Z :=
  newDateOf (getFullYear month) (getMonth month) 1.

Definition monthEnd (month : Z) : Z :=
  newDateOf (getFullYear month) (getMonth month + 1) 0.

Definition monthlyWhere (userId : string) (startDate endDate : Z)
  (t : Transaction) : bool :=
  String.eqb (t_userId t) userId
  && (startDate <=? t_date t) && (t_date t <=? endDate).

Definition getMonthlyStats (userId : string) (month : Z) : DB Stats :=
  let startDate := monthStart month in
  let endDate := monthEnd month in
  rows <- findMany (monthlyWhere userId startDate endDate) ;;
  ret (reduceStats rows).

(** The sum of the amounts of rows, as a loop of [+=] from 0 computes it. *)
Definition sumAmounts (rows : list Transaction) : float :=
  fold_left (fun acc t => (acc + amountValue t)%float) rows 0%float.

Definition isExpense (t : Transaction) : bool :=
  String.eqb (t_type t) "EXPENSE".

(** *** generateMonthlyReports: the month reported on *)

(** [lastMonth.setMonth(lastMonth.getMonth() - 1)] on [new Date()]. *)
Definition lastMonthOf (now : Z) : Z := setMonth now (getMonth now - 1).

(** *** checkBudgetAlerts: the loop over the budgets *)

(** A budget as the query returns it: with the user it belongs to and the
    default accounts of that user, each an identifier and a name. *)
Record BudgetRow := {
  br_budget : Budget;
  br_userId : string;
  br_userEmail : option string;
  br_userName : string;
  br_defaultAccounts : list (string * string)
}.

Record Mail := {
  mail_to : string;
  mail_userName : string;
  mail_accountName : string;
  mail_percentageUsed : float;
  mail_budgetAmount : float;
  mail_totalExpenses : float
}.

(** The sum that the database computes over a Decimal column ([null] being
    a possible answer), and the rounding of a number to one decimal,
    [parseFloat(x.toFixed(1))]. *)
Variable dbSum : list Decimal -> option Decimal.
Variable fixed1 : float -> float.

(** A value of a budget as the loop receives it.  [budgets] is what
    [step.run("fetch-budgets", ...)] returns, and a step returns the JSON
    of what its callback returned: a Decimal of the database arrives as
    the string of its digits, kept here as the Decimal it prints; a number
    arrives as a number. *)
Inductive JsonValue : Type :=
| JsonString (d : Decimal)
| JsonNumber (x : float).

(** [budget.amount] in the loop; the division reads the string as the
    number [toNumber] gives. *)
Definition servedAmount (budget : Budget) : JsonValue :=
  JsonString (b_amount budget).

(** [parseFloat(v.toFixed(1))]: a number has the method [toFixed]; a
    string has none, and the call throws a TypeError ([None]). *)
Definition toFixed1 (v : JsonValue) : option float :=
  match v with
  | JsonNumber x => Some (fixed1 x)
  | JsonString _ => None
  end.

(** One check of a budget as the handler runs it: the condition of the
    [if]; in the branch the figures of the mail, [budgetAmount.toFixed(1)]
    among them, are evaluated before [sendEmail] and [db.budget.update]
    are called, so that an error there sends nothing and writes nothing. *)
Definition serveBudgetCheck (budget : Budget) (totalExpenses : float)
  (now : Z) : Outcome (bool * Budget) :=
  if shouldAlert budget totalExpenses now
  then match toFixed1 (servedAmount budget) with
       | Some _ =>
           Returns (true, {| b_id := b_id budget; b_amount := b_amount budget;
                             b_lastAlertSent := Some now |})
       | None => Throws
       end
  else Returns (false, budget).

(** [startDate]: the clock, with the day of the month set to 1. *)
Definition budgetPeriodStart (now : Z) : Z := setDate now 1.

Definition expenseWhere (userId accountId : string) (startDate : Z)
  (t : Transaction) : bool :=
  String.eqb (t_userId t) userId
  && String.eqb (t_accountId t) accountId
  && String.eqb (t_type t) "EXPENSE"
  && (startDate <=? t_date t).

Definition amountsOf (rows : list Transaction) : list Decimal :=
  flat_map (fun t => match t_amount t with
                     | Some a => [a]
                     | None => []
                     end) rows.

Definition totalExpensesOf (ledger : list Transaction)
  (userId accountId : string) (now : Z) : float :=
  orZero (option_map toNumber
            (dbSum (amountsOf
                      (filter (expenseWhere userId accountId
                                 (budgetPeriodStart now)) ledger)))).

Definition stampAlert (now : Z) (r : BudgetRow) : BudgetRow :=
  {| br_budget := {| b_id := b_id (br_budget r);
                     b_amount := b_amount (br_budget r);
                     b_lastAlertSent := Some now |};
     br_userId := br_userId r;
     br_userEmail := br_userEmail r;
     br_userName := br_userName r;
     br_defaultAccounts := br_defaultAccounts r |}.

(** [db.budget.update] by identifier; the row was fetched in this run and
    nothing removes budgets, so the update finds it. *)
Definition updateLastAlertSent (budgetId : string) (now : Z)
  (table : list BudgetRow) : list BudgetRow :=
  map (fun r => if String.eqb (b_id (br_budget r)) budgetId
                then stampAlert now r else r) table.

(** The mail of an alert; the properties of its [data] are evaluated in
    the order written, and [budgetAmount.toFixed(1)] may throw. *)
Definition alertMail (r : BudgetRow) (email accountName : string)
  (totalExpenses : float) : option Mail :=
  let percentage := fixed1 (percentageUsed (br_budget r) totalExpenses) in
  match toFixed1 (servedAmount (br_budget r)) with
  | Some amount =>
      Some {| mail_to := email;
              mail_userName := br_userName r;
              mail_accountName := accountName;
              mail_percentageUsed := percentage;
              mail_budgetAmount := amount;
              mail_totalExpenses := fixed1 totalExpenses |}
  | None => None
  end.

(** One turn of the loop, on the budget [r] as fetched at the start of the
    run: the mails sent so far and the table of budgets, before and after,
    or the error thrown. *)
Definition checkBudget (ledger : list Transaction) (now : Z)
  (acc : list Mail * list BudgetRow) (r : BudgetRow)
  : Outcome (list Mail * list BudgetRow) :=
  match br_defaultAccounts r with
  | [] => Returns acc
  | (accountId, accountName) :: _ =>
      match br_userEmail r with
      | None => Returns acc
      | Some email =>
          if emptyString email then Returns acc
          else
            let totalExpenses :=
              totalExpensesOf ledger (br_userId r) accountId now in
            if shouldAlert (br_budget r) totalExpenses now
            then match alertMail r email accountName totalExpenses with
                 | Some mail =>
                     Returns (fst acc ++ [mail],
                              updateLastAlertSent (b_id (br_budget r)) now
                                (snd acc))
                 | None => Throws
                 end
            else Returns acc
      end
  end.

(** How a run ends, with the mails it has sent and the table of budgets as
    it has left it: the loop came to its end, or an error stopped it (the
    handler logs the error and throws it again). *)
Inductive RunResult : Type :=
| Completed (mails : list Mail) (table : list BudgetRow)
| Failed (mails : list Mail) (table : list BudgetRow).

Fixpoint runBudgets (ledger : list Transaction) (now : Z)
  (rows : list BudgetRow) (acc : list Mail * list BudgetRow) : RunResult :=
  match rows with
  | [] => Completed (fst acc) (snd acc)
  | r :: rest =>
      match checkBudget ledger now acc r with
      | Returns acc' => runBudgets ledger now rest acc'
      | Throws => Failed (fst acc) (snd acc)
      end
  end.

Definition checkBudgetAlerts (ledger : list Transaction) (now : Z)
  (table : list BudgetRow) : RunResult :=
  runBudgets ledger now table ([], table).

(** Whether the turn for [r] enters the branch of the alert. *)
Definition alerts (ledger : list Transaction) (now : Z) (r : BudgetRow)
  : bool :=
  match br_defaultAccounts r, br_userEmail r with
  | (accountId, _) :: _, Some email =>
      negb (emptyString email)
      && shouldAlert (br_budget r)
           (totalExpensesOf ledger (br_userId r) accountId now) now
  | _, _ => false
  end.

(** The row that [findUnique] of an event returns. *)
Definition named (event : Event) (t : Transaction) : bool :=
  String.eqb (t_id t) (transactionId event)
  && String.eqb (t_userId t) (userId event).

(** The entry of a category, from the rows of that category in turn. *)
Definition categoryTotal (rows : list Transaction) (v : option float)
  : option float :=
  fold_left (fun v t => Some (orZero v + amountValue t)%float) rows v.

End Reports.

(** ** Stores to compute examples on *)

Definition rent : @Transaction utcRuntime :=
  {| t_id := "t1"; t_type := "EXPENSE";
     t_amount := Some (100%float : @Decimal utcRuntime);
     t_description := "rent"; t_date := 1706745600000;
     t_category := "housing"; t_userId := "u1"; t_accountId := "a1";
     t_isRecurring := true; t_recurringInterval := Some "BIWEEKLY"%string;
     t_nextRecurringDate := Some 1706745600000; t_lastProcessed := None;
     t_status := "COMPLETED" |}.

Definition rentStore : @Store utcRuntime :=
  {| transactions := [rent];
     accounts := [ {| a_id := "a1";
                      a_balance := 500%float : @Decimal utcRuntime |} ] |}.

Definition rentEvent : Event :=
  {| transactionId := "t1"; userId := "u1" |}.

Definition gym : @Transaction utcRuntime :=
  {| t_id := "t2"; t_type := "EXPENSE";
     t_amount := Some (100%float : @Decimal utcRuntime);
     t_description := "gym"; t_date := 1706745600000;
     t_category := "health"; t_userId := "u1"; t_accountId := "a1";
     t_isRecurring := true; t_recurringInterval := Some "MONTHLY"%string;
     t_nextRecurringDate := Some 1709251200000; t_lastProcessed := None;
     t_status := "COMPLETED" |}.

Definition gymStore : @Store utcRuntime :=
  {| transactions := [gym];
     accounts := [ {| a_id := "a1";
                      a_balance := 500%float : @Decimal utcRuntime |} ] |}.

Definition gymStoreAfter : @Store utcRuntime :=
  {| transactions :=
       [ markProcessed 1709251200000 1711929600000 gym;
         recurringEntry gym 1709251200000 "n1" ];
     accounts := [ {| a_id := "a1";
                      a_balance := 400%float : @Decimal utcRuntime |} ] |}.

Definition febRow (rowId : string) (date : Z) : @Transaction utcRuntime :=
  {| t_id := rowId; t_type := "EXPENSE";
     t_amount := Some (10%float : @Decimal utcRuntime);
     t_description := "lunch"; t_date := date;
     t_category := "food"; t_userId := "u1"; t_accountId := "a1";
     t_isRecurring := false; t_recurringInterval := None;
     t_nextRecurringDate := None; t_lastProcessed := None;
     t_status := "COMPLETED" |}.

(** Rows of 10 February 2024, of 29 February at 00:00 and at 12:00, and of
    1 March. *)
Definition febStore : @Store utcRuntime :=
  {| transactions := [ febRow "f1" 1707523200000; febRow "f2" 1709164800000;
                       febRow "f3" 1709208000000; febRow "f4" 1709251200000 ];
     accounts := [] |}.

(** A rounding to compute examples with; no example depends on it. *)
Definition noRounding : float -> float := fun x => x.

(** A budget of 1000 and a budget of 0, neither alerted yet. *)
Definition budget1000 : @Budget utcRuntime :=
  {| b_id := "b1"; b_amount := 1000%float : @Decimal utcRuntime;
     b_lastAlertSent := None |}.

Definition budget0 : @Budget utcRuntime :=
  {| b_id := "b1"; b_amount := 0%float : @Decimal utcRuntime;
     b_lastAlertSent := None |}.

(** * Properties *)


Lemma DayFromYear_succ y : DayFromYear (y + 1) = DayFromYear y + DaysInYear y.
Proof.
  unfold DayFromYear, DaysInYear, isLeapYear.
  destruct (Z.eqb_spec (y mod 4) 0), (Z.eqb_spec (y mod 100) 0),
    (Z.eqb_spec (y mod 400) 0); cbn [negb]; lia.
Qed.

Lemma YearFromDay_spec d :
  DayFromYear (YearFromDay d) <= d < DayFromYear (YearFromDay d + 1).
Proof.
  unfold YearFromDay.
  set (y := 1970 + 400 * d / 146097).
  assert (Hlo : DayFromYear (y - 1) <= d).
  { unfold DayFromYear, y. lia. }
  assert (Hhi : d < DayFromYear (y + 1 + 1)).
  { unfold DayFromYear, y. lia. }
  destruct (Z.ltb_spec d (DayFromYear y)).
  - replace (y - 1 + 1) with y by lia. lia.
  - destruct (Z.leb_spec (DayFromYear (y + 1)) d); lia.
Qed.

Lemma DayFromYear_mono y1 y2 : y1 <= y2 -> DayFromYear y1 <= DayFromYear y2.
Proof. unfold DayFromYear. lia. Qed.

Lemma DayFromYear_lt y1 y2 : y1 < y2 -> DayFromYear y1 < DayFromYear y2.
Proof.
  intros H. pose proof (DayFromYear_mono (y1 + 1) y2 ltac:(lia)) as Hm.
  rewrite DayFromYear_succ in Hm. unfold DaysInYear in Hm.
  destruct (isLeapYear y1); lia.
Qed.

(** [YearFromTime t] is the largest year that starts at or before [t],
    which is how ECMA-262 defines it. *)
Lemma YearFromTime_largest t :
  TimeFromYear (YearFromTime t) <= t
  /\ forall y, TimeFromYear y <= t -> y <= YearFromTime t.
Proof.
  unfold TimeFromYear, YearFromTime.
  pose proof (YearFromDay_spec (Day t)) as [Hlo Hhi]. split.
  - unfold Day, msPerDay in *. lia.
  - intros y Hy.
    destruct (Z_le_gt_dec y (YearFromDay (Day t))) as [| Hgt]; [assumption |].
    pose proof (DayFromYear_lt (YearFromDay (Day t)) y ltac:(lia)).
    pose proof (DayFromYear_mono (YearFromDay (Day t) + 1) y ltac:(lia)).
    unfold Day, msPerDay in *. lia.
Qed.

Lemma YearFromDay_unique d y :
  DayFromYear y <= d < DayFromYear (y + 1) -> YearFromDay d = y.
Proof.
  intros [Hlo Hhi]. pose proof (YearFromDay_spec d) as [Slo Shi].
  destruct (Z.lt_trichotomy (YearFromDay d) y) as [Hlt | [Heq | Hgt]]; auto.
  - pose proof (DayFromYear_mono (YearFromDay d + 1) y ltac:(lia)). lia.
  - pose proof (DayFromYear_mono (y + 1) (YearFromDay d) ltac:(lia)). lia.
Qed.

Lemma YearFromDay_mono d1 d2 : d1 <= d2 -> YearFromDay d1 <= YearFromDay d2.
Proof.
  intros H. pose proof (YearFromDay_spec d1) as [L1 _].
  pose proof (YearFromDay_spec d2) as [_ H2].
  destruct (Z_le_gt_dec (YearFromDay d1) (YearFromDay d2)) as [|Hgt]; auto.
  pose proof (DayFromYear_mono (YearFromDay d2 + 1) (YearFromDay d1) ltac:(lia)).
  lia.
Qed.

Lemma Day_MakeDate day time :
  0 <= time < msPerDay -> Day (MakeDate day time) = day.
Proof. unfold Day, MakeDate, msPerDay. lia. Qed.

Lemma TimeWithinDay_MakeDate day time :
  0 <= time < msPerDay -> TimeWithinDay (MakeDate day time) = time.
Proof. unfold TimeWithinDay, MakeDate, msPerDay. lia. Qed.

Lemma TimeWithinDay_range t : 0 <= TimeWithinDay t < msPerDay.
Proof. unfold TimeWithinDay, msPerDay. lia. Qed.

Lemma MakeDate_Day t : MakeDate (Day t) (TimeWithinDay t) = t.
Proof. unfold MakeDate, Day, TimeWithinDay, msPerDay. lia. Qed.

Lemma Day_mono t1 t2 : t1 <= t2 -> Day t1 <= Day t2.
Proof. unfold Day, msPerDay. lia. Qed.

Lemma month_cases m :
  0 <= m < 12 ->
  m = 0 \/ m = 1 \/ m = 2 \/ m = 3 \/ m = 4 \/ m = 5 \/
  m = 6 \/ m = 7 \/ m = 8 \/ m = 9 \/ m = 10 \/ m = 11.
Proof. lia. Qed.

Ltac ltb_cases :=
  repeat match goal with
         | |- context [?a <? ?b] => destruct (Z.ltb_spec a b); try lia
         end.

Ltac month_simpl :=
  cbv beta iota delta [daysBeforeMonth Z.eqb Pos.eqb orb].

Ltac month_simpl_in H :=
  cbv beta iota delta [daysBeforeMonth Z.eqb Pos.eqb orb] in H.

Ltac month_split H :=
  let C := fresh "C" in
  pose proof (month_cases _ H) as C;
  destruct C as [C|[C|[C|[C|[C|[C|[C|[C|[C|[C|[C|C]]]]]]]]]]]; subst.

Lemma monthOfYearDay_range dwy leap :
  0 <= monthOfYearDay dwy leap < 12.
Proof.
  unfold monthOfYearDay.
  ltb_cases.
Qed.

(** A day [dd] of month [m] lies in month [m]. *)
Lemma monthOfYearDay_daysBeforeMonth m leap dd :
  0 <= m < 12 -> 0 <= leap <= 1 ->
  1 <= dd <= (if m =? 1 then 28 + leap
              else if (m =? 3) || (m =? 5) || (m =? 8) || (m =? 10) then 30
              else 31) ->
  monthOfYearDay (daysBeforeMonth m leap + dd - 1) leap = m.
Proof.
  intros Hm Hl Hd. unfold monthOfYearDay.
  month_split Hm; month_simpl_in Hd; month_simpl; ltb_cases.
Qed.

(** Conversely the day within the year sits inside its month. *)
Lemma daysBeforeMonth_monthOfYearDay dwy leap :
  0 <= leap <= 1 -> 0 <= dwy < 365 + leap ->
  let m := monthOfYearDay dwy leap in
  1 <= dwy - daysBeforeMonth m leap + 1 <=
    (if m =? 1 then 28 + leap
     else if (m =? 3) || (m =? 5) || (m =? 8) || (m =? 10) then 30
     else 31).
Proof.
  intros Hl Hd. unfold monthOfYearDay.
  ltb_cases; month_simpl; lia.
Qed.

Lemma daysInMonth_leap y m :
  daysInMonth y m =
  (if m =? 1 then 28 + (if isLeapYear y then 1 else 0)
   else if (m =? 3) || (m =? 5) || (m =? 8) || (m =? 10) then 30
   else 31).
Proof. unfold daysInMonth. destruct (m =? 1), (isLeapYear y); reflexivity. Qed.

Lemma leap_range y : 0 <= (if isLeapYear y then 1 else 0) <= 1.
Proof. destruct (isLeapYear y); lia. Qed.

Lemma daysInMonth_range y m : 28 <= daysInMonth y m <= 31.
Proof.
  unfold daysInMonth.
  destruct (m =? 1), (isLeapYear y),
    ((m =? 3) || (m =? 5) || (m =? 8) || (m =? 10)); lia.
Qed.

Lemma daysBeforeMonth_end m leap :
  0 <= m < 12 -> 0 <= leap <= 1 ->
  daysBeforeMonth m leap +
   (if m =? 1 then 28 + leap
    else if (m =? 3) || (m =? 5) || (m =? 8) || (m =? 10) then 30
    else 31) <= 365 + leap.
Proof. intros Hm Hl. month_split Hm; month_simpl; lia. Qed.

Lemma daysBeforeMonth_nonneg m leap :
  0 <= leap -> 0 <= daysBeforeMonth m leap.
Proof.
  intros. unfold daysBeforeMonth.
  repeat match goal with
         | |- context [?a =? ?b] => destruct (Z.eqb_spec a b)
         end; lia.
Qed.

Lemma daysBeforeMonth_succ m leap :
  0 <= m < 11 ->
  daysBeforeMonth (m + 1) leap =
  daysBeforeMonth m leap +
   (if m =? 1 then 28 + leap
    else if (m =? 3) || (m =? 5) || (m =? 8) || (m =? 10) then 30
    else 31).
Proof.
  intros Hm. assert (Hm' : 0 <= m < 12) by lia.
  month_split Hm'; try lia;
    match goal with
    | |- context [daysBeforeMonth (?a + 1) _] =>
        let v := eval compute in (a + 1) in change (a + 1) with v
    end; month_simpl; lia.
Qed.

Lemma DaysInYear_leap y : DaysInYear y = 365 + (if isLeapYear y then 1 else 0).
Proof. unfold DaysInYear. destruct (isLeapYear y); reflexivity. Qed.

(** *** Day number <-> civil date *)

Lemma MakeDay_normal y m dd :
  0 <= m < 12 ->
  MakeDay y m dd =
  DayFromYear y + daysBeforeMonth m (if isLeapYear y then 1 else 0) + dd - 1.
Proof.
  intros Hm. unfold MakeDay.
  replace (m / 12) with 0 by lia. replace (m mod 12) with m by lia.
  now rewrite Z.add_0_r.
Qed.

Lemma MakeDay_carry y m dd :
  MakeDay y m dd = MakeDay (y + m / 12) (m mod 12) dd.
Proof.
  unfold MakeDay.
  replace (m mod 12 / 12) with 0 by lia.
  replace (m mod 12 mod 12) with (m mod 12) by lia.
  now rewrite Z.add_0_r.
Qed.

Lemma MakeDay_date y m dd k : MakeDay y m (dd + k) = MakeDay y m dd + k.
Proof. unfold MakeDay. lia. Qed.

Lemma YearFromDay_MakeDay y m dd :
  0 <= m < 12 -> 1 <= dd <= daysInMonth y m ->
  YearFromDay (MakeDay y m dd) = y.
Proof.
  intros Hm Hd. apply YearFromDay_unique.
  rewrite MakeDay_normal, DayFromYear_succ, DaysInYear_leap by assumption.
  rewrite daysInMonth_leap in Hd.
  pose proof (leap_range y) as Hl.
  pose proof (daysBeforeMonth_end m _ Hm Hl).
  pose proof (daysBeforeMonth_nonneg m _ (proj1 Hl)).
  lia.
Qed.

(** The calendar fields of the time value built from a civil date and a
    time of day are that date and that time. *)
Lemma fields_MakeDate y m dd tod :
  0 <= m < 12 -> 1 <= dd <= daysInMonth y m -> 0 <= tod < msPerDay ->
  let t := MakeDate (MakeDay y m dd) tod in
  YearFromTime t = y /\ MonthFromTime t = m /\ DateFromTime t = dd /\
  TimeWithinDay t = tod.
Proof.
  intros Hm Hd Ht t.
  assert (HY : YearFromTime t = y).
  { unfold YearFromTime, t. rewrite Day_MakeDate by assumption.
    now apply YearFromDay_MakeDay. }
  assert (HW : DayWithinYear t =
               daysBeforeMonth m (if isLeapYear y then 1 else 0) + dd - 1).
  { unfold DayWithinYear. rewrite HY. unfold t.
    rewrite Day_MakeDate, MakeDay_normal by assumption. lia. }
  assert (HM : MonthFromTime t = m).
  { unfold MonthFromTime, InLeapYear. rewrite HW, HY.
    rewrite daysInMonth_leap in Hd.
    apply monthOfYearDay_daysBeforeMonth; auto using leap_range. }
  repeat split; auto.
  - unfold DateFromTime. rewrite HM, HW. unfold InLeapYear. rewrite HY. lia.
  - unfold t. now apply TimeWithinDay_MakeDate.
Qed.

Lemma DayWithinYear_range t :
  0 <= DayWithinYear t < DaysInYear (YearFromTime t).
Proof.
  unfold DayWithinYear, YearFromTime.
  pose proof (YearFromDay_spec (Day t)) as H.
  rewrite DayFromYear_succ in H. lia.
Qed.

Lemma MonthFromTime_range t : 0 <= MonthFromTime t < 12.
Proof. apply monthOfYearDay_range. Qed.

Lemma DateFromTime_range t :
  1 <= DateFromTime t <= daysInMonth (YearFromTime t) (MonthFromTime t).
Proof.
  unfold DateFromTime. rewrite daysInMonth_leap.
  pose proof (DayWithinYear_range t) as H. rewrite DaysInYear_leap in H.
  unfold MonthFromTime, InLeapYear.
  apply daysBeforeMonth_monthOfYearDay; auto using leap_range.
Qed.

(** Every time value is the one built from its own calendar fields. *)
Lemma MakeDay_fields t :
  MakeDay (YearFromTime t) (MonthFromTime t) (DateFromTime t) = Day t.
Proof.
  rewrite MakeDay_normal by apply MonthFromTime_range.
  unfold DateFromTime, DayWithinYear, InLeapYear. lia.
Qed.

Lemma fields_of_day t y m dd :
  0 <= m < 12 -> 1 <= dd <= daysInMonth y m -> Day t = MakeDay y m dd ->
  YearFromTime t = y /\ MonthFromTime t = m /\ DateFromTime t = dd.
Proof.
  intros Hm Hd HD.
  pose proof (fields_MakeDate y m dd (TimeWithinDay t) Hm Hd
                (TimeWithinDay_range t)) as H.
  cbv zeta in H. rewrite <- HD, MakeDate_Day in H. tauto.
Qed.

(** Moving to the following month moves the day number by the length of
    the month left, whatever the date. *)
Lemma MakeDay_next_month y m dd :
  0 <= m < 12 -> MakeDay y (m + 1) dd = MakeDay y m dd + daysInMonth y m.
Proof.
  intros Hm. destruct (Z.eq_dec m 11) as [-> | Hne].
  - rewrite (MakeDay_carry y (11 + 1)).
    change ((11 + 1) / 12) with 1. change ((11 + 1) mod 12) with 0.
    rewrite !MakeDay_normal by lia.
    rewrite DayFromYear_succ, DaysInYear_leap.
    unfold daysInMonth. month_simpl. lia.
  - rewrite !MakeDay_normal by lia.
    rewrite daysBeforeMonth_succ, daysInMonth_leap by lia. lia.
Qed.

(** Moving to the same month of the following year moves the day number
    by 365 or 366 days. *)
Lemma MakeDay_next_year y m dd :
  0 <= m < 12 ->
  MakeDay (y + 1) m dd =
  MakeDay y m dd + (if m <? 2 then DaysInYear y else DaysInYear (y + 1)).
Proof.
  intros Hm. rewrite !MakeDay_normal by assumption.
  rewrite DayFromYear_succ, !DaysInYear_leap.
  month_split Hm; month_simpl; cbn [Z.ltb Z.compare Pos.compare Pos.compare_cont];
    lia.
Qed.

Lemma monthOfYearDay_mono d1 d2 leap :
  d1 <= d2 -> monthOfYearDay d1 leap <= monthOfYearDay d2 leap.
Proof.
  intros H. unfold monthOfYearDay at 1.
  ltb_cases; unfold monthOfYearDay; ltb_cases.
Qed.


Lemma monthIndex_mono t1 t2 : t1 <= t2 -> monthIndex t1 <= monthIndex t2.
Proof.
  intros H. unfold monthIndex.
  pose proof (MonthFromTime_range t1). pose proof (MonthFromTime_range t2).
  pose proof (YearFromDay_mono _ _ (Day_mono _ _ H)) as HY.
  fold (YearFromTime t1) in HY. fold (YearFromTime t2) in HY.
  destruct (Z.eq_dec (YearFromTime t1) (YearFromTime t2)) as [E | NE]; [| lia].
  enough (MonthFromTime t1 <= MonthFromTime t2) by lia.
  unfold MonthFromTime, InLeapYear, DayWithinYear. rewrite E.
  apply monthOfYearDay_mono. pose proof (Day_mono _ _ H). lia.
Qed.

Lemma monthIndex_inj t1 t2 :
  monthIndex t1 = monthIndex t2 <->
  MonthFromTime t1 = MonthFromTime t2 /\ YearFromTime t1 = YearFromTime t2.
Proof.
  unfold monthIndex.
  pose proof (MonthFromTime_range t1). pose proof (MonthFromTime_range t2).
  lia.
Qed.

(** ** Dates: the methods of [Date] against the civil calendar *)


Lemma fieldsL_valid lt : Civil.valid (fieldsL lt).
Proof.
  split; cbn; [apply MonthFromTime_range | apply DateFromTime_range].
Qed.

Lemma fieldsL_of_day lt y m dd :
  0 <= m < 12 -> 1 <= dd <= daysInMonth y m -> Day lt = MakeDay y m dd ->
  fieldsL lt = Civil.mk y m dd.
Proof.
  intros Hm Hd HD. destruct (fields_of_day lt y m dd Hm Hd HD) as (A & B & C).
  unfold fieldsL. now rewrite A, B, C.
Qed.

Lemma Day_add_days lt k : Day (lt + k * msPerDay) = Day lt + k.
Proof. unfold Day, msPerDay. lia. Qed.

Lemma TimeWithinDay_add_days lt k :
  TimeWithinDay (lt + k * msPerDay) = TimeWithinDay lt.
Proof. unfold TimeWithinDay, msPerDay. lia. Qed.

Lemma MakeDate_add_days lt k :
  MakeDate (Day lt + k) (TimeWithinDay lt) = lt + k * msPerDay.
Proof. unfold MakeDate, Day, TimeWithinDay, msPerDay. lia. Qed.

(** One day later in time is the next day of the calendar. *)
Lemma fieldsL_next_day lt :
  fieldsL (lt + 1 * msPerDay) = Civil.nextDay (fieldsL lt).
Proof.
  pose proof (MonthFromTime_range lt) as Hm.
  pose proof (DateFromTime_range lt) as Hd.
  pose proof (daysInMonth_range (YearFromTime lt) (MonthFromTime lt)) as Hl.
  assert (HD : Day (lt + 1 * msPerDay) =
               MakeDay (YearFromTime lt) (MonthFromTime lt) (DateFromTime lt + 1)).
  { rewrite Day_add_days, MakeDay_date, MakeDay_fields. reflexivity. }
  unfold Civil.nextDay. cbn [fieldsL Civil.year Civil.month Civil.day].
  destruct (Z.ltb_spec (DateFromTime lt)
              (daysInMonth (YearFromTime lt) (MonthFromTime lt))) as [Hlt | Hge].
  - apply fieldsL_of_day; auto. lia.
  - assert (Hlast : DateFromTime lt =
                    daysInMonth (YearFromTime lt) (MonthFromTime lt)) by lia.
    assert (HD' : Day (lt + 1 * msPerDay) =
                  MakeDay (YearFromTime lt) (MonthFromTime lt + 1) 1).
    { rewrite HD, MakeDay_next_month by assumption.
      rewrite Hlast. unfold MakeDay. lia. }
    destruct (Z.ltb_spec (MonthFromTime lt) 11) as [Hm11 | Hm11].
    + apply fieldsL_of_day; auto; try lia.
      pose proof (daysInMonth_range (YearFromTime lt) (MonthFromTime lt + 1)).
      lia.
    + assert (E : MonthFromTime lt = 11) by lia.
      rewrite E in HD'. rewrite (MakeDay_carry _ (11 + 1)) in HD'.
      change ((11 + 1) / 12) with 1 in HD'.
      change ((11 + 1) mod 12) with 0 in HD'.
      apply fieldsL_of_day; auto; try lia.
      pose proof (daysInMonth_range (YearFromTime lt + 1) 0). lia.
Qed.

Lemma fieldsL_add_days k lt :
  fieldsL (lt + Z.of_nat k * msPerDay) = Civil.addDays k (fieldsL lt).
Proof.
  induction k as [| k IH].
  - cbn. now rewrite Z.add_0_r.
  - change (Civil.addDays (S k) (fieldsL lt))
      with (Civil.nextDay (Civil.addDays k (fieldsL lt))).
    rewrite <- IH, <- fieldsL_next_day. f_equal. lia.
Qed.

(** A day number given by a month and a day of that month, the day
    possibly past the end of the month, is the civil date that
    [Civil.overflow] names. *)
Lemma fieldsL_overflow lt y m dd :
  0 <= m < 12 -> 1 <= dd -> Day lt = MakeDay y m dd ->
  fieldsL lt = Civil.overflow y m dd.
Proof.
  intros Hm Hd HD. unfold Civil.overflow.
  pose proof (daysInMonth_range y m) as Hl.
  destruct (Z.leb_spec dd (daysInMonth y m)) as [Hle | Hgt].
  - apply fieldsL_of_day; auto.
  - set (len := daysInMonth y m) in *.
    set (lt0 := lt - (dd - len) * msPerDay).
    assert (H0 : fieldsL lt0 = Civil.mk y m len).
    { apply fieldsL_of_day; auto; try lia.
      unfold lt0. replace (lt - (dd - len) * msPerDay)
        with (lt + (len - dd) * msPerDay) by lia.
      rewrite Day_add_days, HD. unfold MakeDay. lia. }
    rewrite <- H0, <- fieldsL_add_days. f_equal. unfold lt0.
    rewrite Z2Nat.id by lia. lia.
Qed.

Section DateProps.

Context `{Runtime}.

Lemma LocalTime_UTC x : LocalTime (UTC x) = x.
Proof. unfold LocalTime, UTC. lia. Qed.

Lemma civilDate_fieldsL t : civilDate t = fieldsL (LocalTime t).
Proof. reflexivity. Qed.

Lemma civilDate_valid t : Civil.valid (civilDate t).
Proof. rewrite civilDate_fieldsL. apply fieldsL_valid. Qed.

Lemma setDate_add t k : setDate t (getDate t + k) = t + k * msPerDay.
Proof.
  unfold setDate, getDate. cbv zeta.
  rewrite MakeDay_date, MakeDay_fields, MakeDate_add_days.
  unfold UTC, LocalTime. lia.
Qed.

Lemma setMonth_succ t :
  setMonth t (getMonth t + 1) =
  t + daysInMonth (getFullYear t) (getMonth t) * msPerDay.
Proof.
  unfold setMonth, getMonth, getFullYear. cbv zeta.
  rewrite MakeDay_next_month by apply MonthFromTime_range.
  rewrite MakeDay_fields, MakeDate_add_days.
  unfold UTC, LocalTime. lia.
Qed.

Lemma setFullYear_succ t :
  setFullYear t (getFullYear t + 1) =
  t + (if getMonth t <? 2 then DaysInYear (getFullYear t)
       else DaysInYear (getFullYear t + 1)) * msPerDay.
Proof.
  unfold setFullYear, getMonth, getFullYear. cbv zeta.
  rewrite MakeDay_next_year by apply MonthFromTime_range.
  rewrite MakeDay_fields, MakeDate_add_days.
  unfold UTC, LocalTime. lia.
Qed.

Lemma civilDate_add_days t k :
  civilDate (t + Z.of_nat k * msPerDay) = Civil.addDays k (civilDate t).
Proof.
  rewrite !civilDate_fieldsL, <- fieldsL_add_days. f_equal.
  unfold LocalTime. lia.
Qed.

Lemma timeOfDay_add_days t k : timeOfDay (t + k * msPerDay) = timeOfDay t.
Proof.
  unfold timeOfDay. rewrite <- (TimeWithinDay_add_days (LocalTime t) k).
  f_equal. unfold LocalTime. lia.
Qed.

Lemma civilDate_setMonth_succ t :
  civilDate (setMonth t (getMonth t + 1)) = Civil.addMonth (civilDate t).
Proof.
  pose proof (MonthFromTime_range (LocalTime t)) as Hm.
  pose proof (DateFromTime_range (LocalTime t)) as Hd.
  pose proof (TimeWithinDay_range (LocalTime t)) as Ht.
  rewrite civilDate_fieldsL. unfold setMonth. cbv zeta.
  rewrite LocalTime_UTC. unfold Civil.addMonth.
  cbn [civilDate Civil.year Civil.month Civil.day].
  unfold getMonth, getFullYear, getDate.
  destruct (Z.ltb_spec (MonthFromTime (LocalTime t)) 11) as [Hlt | Hge].
  - apply fieldsL_overflow; try lia. now rewrite Day_MakeDate.
  - assert (E : MonthFromTime (LocalTime t) = 11) by lia. rewrite E.
    apply fieldsL_overflow; try lia. rewrite Day_MakeDate by assumption.
    rewrite (MakeDay_carry _ (11 + 1)). reflexivity.
Qed.

Lemma civilDate_setFullYear_succ t :
  civilDate (setFullYear t (getFullYear t + 1)) = Civil.addYear (civilDate t).
Proof.
  pose proof (MonthFromTime_range (LocalTime t)) as Hm.
  pose proof (DateFromTime_range (LocalTime t)) as Hd.
  pose proof (TimeWithinDay_range (LocalTime t)) as Ht.
  rewrite civilDate_fieldsL. unfold setFullYear. cbv zeta.
  rewrite LocalTime_UTC. unfold Civil.addYear.
  cbn [civilDate Civil.year Civil.month Civil.day].
  unfold getMonth, getFullYear, getDate.
  apply fieldsL_overflow; try lia. now rewrite Day_MakeDate.
Qed.

End DateProps.

(** ** calculateNextRecurringDate *)

Lemma addInterval_daily c : Civil.addInterval "DAILY" c = Civil.addDays 1 c.
Proof. reflexivity. Qed.

Lemma addInterval_weekly c : Civil.addInterval "WEEKLY" c = Civil.addDays 7 c.
Proof. reflexivity. Qed.

Lemma addInterval_monthly c : Civil.addInterval "MONTHLY" c = Civil.addMonth c.
Proof. reflexivity. Qed.

Lemma addInterval_yearly c : Civil.addInterval "YEARLY" c = Civil.addYear c.
Proof. reflexivity. Qed.

Section NextDate.

Context `{Runtime}.

Lemma timeOfDay_setMonth_succ t :
  timeOfDay (setMonth t (getMonth t + 1)) = timeOfDay t.
Proof. rewrite setMonth_succ. apply timeOfDay_add_days. Qed.

Lemma timeOfDay_setFullYear_succ t :
  timeOfDay (setFullYear t (getFullYear t + 1)) = timeOfDay t.
Proof. rewrite setFullYear_succ. apply timeOfDay_add_days. Qed.

Lemma DaysInYear_pos y : 365 <= DaysInYear y <= 366.
Proof. unfold DaysInYear. destruct (isLeapYear y); lia. Qed.

Lemma calculate_daily now :
  calculateNextRecurringDate now (Some "DAILY"%string)
  = setDate now (getDate now + 1).
Proof. reflexivity. Qed.

Lemma calculate_weekly now :
  calculateNextRecurringDate now (Some "WEEKLY"%string)
  = setDate now (getDate now + 7).
Proof. reflexivity. Qed.

Lemma calculate_monthly now :
  calculateNextRecurringDate now (Some "MONTHLY"%string)
  = setMonth now (getMonth now + 1).
Proof. reflexivity. Qed.

Lemma calculate_yearly now :
  calculateNextRecurringDate now (Some "YEARLY"%string)
  = setFullYear now (getFullYear now + 1).
Proof. reflexivity. Qed.

(** One application, for each of the four intervals: the civil date moves
    by one unit, the time of day stays and the instant moves forward. *)
Lemma next_step interval now :
  In interval intervals ->
  civilDate (calculateNextRecurringDate now (Some interval)) =
    Civil.addInterval interval (civilDate now)
  /\ timeOfDay (calculateNextRecurringDate now (Some interval)) = timeOfDay now
  /\ now < calculateNextRecurringDate now (Some interval).
Proof.
  intros Hin. unfold intervals in Hin. cbn [In] in Hin.
  destruct Hin as [<- | [<- | [<- | [<- | []]]]].
  - rewrite calculate_daily, addInterval_daily, setDate_add. repeat split.
    + apply (civilDate_add_days now 1).
    + apply timeOfDay_add_days.
    + unfold msPerDay. lia.
  - rewrite calculate_weekly, addInterval_weekly, setDate_add. repeat split.
    + apply (civilDate_add_days now 7).
    + apply timeOfDay_add_days.
    + unfold msPerDay. lia.
  - rewrite calculate_monthly, addInterval_monthly. repeat split.
    + apply civilDate_setMonth_succ.
    + apply timeOfDay_setMonth_succ.
    + rewrite setMonth_succ.
      pose proof (daysInMonth_range (getFullYear now) (getMonth now)).
      unfold msPerDay. lia.
  - rewrite calculate_yearly, addInterval_yearly. repeat split.
    + apply civilDate_setFullYear_succ.
    + apply timeOfDay_setFullYear_succ.
    + rewrite setFullYear_succ.
      pose proof (DaysInYear_pos (getFullYear now)).
      pose proof (DaysInYear_pos (getFullYear now + 1)).
      destruct (getMonth now <? 2); unfold msPerDay; lia.
Qed.

(** C5.  For every instant [now], [calculateNextRecurringDate] moves the
    date by one unit of the interval, in calendar terms: DAILY gives the
    next day of the calendar (one day of 24 hours later), WEEKLY the
    seventh day after, MONTHLY the same day of the following month and
    YEARLY the same day and month of the following year, a day that the
    target month lacks being counted on into the month after it; the time
    of day is kept in every case. *)
Theorem calculateNextRecurringDate_adds_one_unit (now : Z) :
  let next := calculateNextRecurringDate now in
  (next (Some "DAILY"%string) = now + 1 * msPerDay
   /\ civilDate (next (Some "DAILY"%string)) = Civil.addDays 1 (civilDate now)
   /\ timeOfDay (next (Some "DAILY"%string)) = timeOfDay now)
  /\ (next (Some "WEEKLY"%string) = now + 7 * msPerDay
      /\ civilDate (next (Some "WEEKLY"%string))
         = Civil.addDays 7 (civilDate now)
      /\ timeOfDay (next (Some "WEEKLY"%string)) = timeOfDay now)
  /\ (civilDate (next (Some "MONTHLY"%string)) = Civil.addMonth (civilDate now)
      /\ timeOfDay (next (Some "MONTHLY"%string)) = timeOfDay now)
  /\ (civilDate (next (Some "YEARLY"%string)) = Civil.addYear (civilDate now)
      /\ timeOfDay (next (Some "YEARLY"%string)) = timeOfDay now).
Proof.
  cbv zeta.
  pose proof (next_step "DAILY" now ltac:(cbn; tauto)) as (D1 & D2 & _).
  pose proof (next_step "WEEKLY" now ltac:(cbn; tauto)) as (W1 & W2 & _).
  pose proof (next_step "MONTHLY" now ltac:(cbn; tauto)) as (M1 & M2 & _).
  pose proof (next_step "YEARLY" now ltac:(cbn; tauto)) as (Y1 & Y2 & _).
  rewrite addInterval_daily in D1. rewrite addInterval_weekly in W1.
  rewrite addInterval_monthly in M1. rewrite addInterval_yearly in Y1.
  split; [split; [| split; [exact D1 | exact D2]] |].
  { rewrite calculate_daily. apply setDate_add. }
  split; [split; [| split; [exact W1 | exact W2]] |].
  { rewrite calculate_weekly. apply setDate_add. }
  split; [split; [exact M1 | exact M2] | split; [exact Y1 | exact Y2]].
Qed.

(** *** Repeated application *)

Lemma occurrence_zero interval start : occurrence interval start 0 = start.
Proof. reflexivity. Qed.

Lemma occurrence_succ interval start k :
  occurrence interval start (S k) =
  calculateNextRecurringDate (occurrence interval start k) interval.
Proof. reflexivity. Qed.

Lemma occurrence_increasing interval start j k :
  In interval intervals -> (j < k)%nat ->
  occurrence (Some interval) start j < occurrence (Some interval) start k.
Proof.
  intros Hin Hjk. induction Hjk as [| k Hle IH].
  - rewrite occurrence_succ. now apply next_step.
  - rewrite occurrence_succ.
    pose proof (next_step interval (occurrence (Some interval) start k) Hin)
      as (_ & _ & Hlt). lia.
Qed.

(** From a day that every month has, [k] monthly steps reach the same day
    [k] months on. *)
Lemma occurrence_monthly start y m d k :
  civilDate start = Civil.mk y m d -> d <= 28 ->
  civilDate (occurrence (Some "MONTHLY"%string) start k)
  = Civil.mk (y + (m + Z.of_nat k) / 12) ((m + Z.of_nat k) mod 12) d.
Proof.
  intros Hs Hd.
  pose proof (civilDate_valid start) as [Hm Hday]. rewrite Hs in Hm, Hday.
  cbn in Hm, Hday.
  induction k as [| k IH].
  - rewrite occurrence_zero, Hs. f_equal; lia.
  - rewrite occurrence_succ.
    pose proof (next_step "MONTHLY" (occurrence (Some "MONTHLY"%string) start k)
                  ltac:(cbn; tauto)) as (Hc & _ & _).
    rewrite Hc, IH, addInterval_monthly. unfold Civil.addMonth, Civil.overflow.
    cbn [Civil.year Civil.month Civil.day].
    set (mk := (m + Z.of_nat k) mod 12).
    set (yk := y + (m + Z.of_nat k) / 12).
    pose proof (daysInMonth_range yk (mk + 1)).
    pose proof (daysInMonth_range (yk + 1) 0).
    destruct (Z.ltb_spec mk 11).
    + destruct (Z.leb_spec d (daysInMonth yk (mk + 1))); [| lia].
      unfold yk, mk. f_equal; lia.
    + destruct (Z.leb_spec d (daysInMonth (yk + 1) 0)); [| lia].
      unfold yk, mk in *. f_equal; lia.
Qed.

(** C6.  For each of the four intervals and every start, the dates that
    repeated application produces increase strictly, and each is one unit
    of the interval after the one before it, in calendar terms and at the
    same time of day; twelve MONTHLY steps from 15 January 2024 reach
    15 January 2025. *)
Theorem occurrence_strictly_increasing_calendar_spaced
  (interval : string) (start : Z) :
  In interval intervals ->
  (forall j k, (j < k)%nat ->
     occurrence (Some interval) start j < occurrence (Some interval) start k)
  /\ (forall k, (1 <= k)%nat ->
        civilDate (occurrence (Some interval) start k)
        = Civil.addInterval interval
            (civilDate (occurrence (Some interval) start (k - 1)))
        /\ timeOfDay (occurrence (Some interval) start k) = timeOfDay start)
  /\ (civilDate start = Civil.mk 2024 0 15 ->
      civilDate (occurrence (Some "MONTHLY"%string) start 12)
      = Civil.mk 2025 0 15).
Proof.
  intros Hin. split; [| split].
  - intros j k Hjk. now apply occurrence_increasing.
  - intros k Hk. destruct k as [| k]; [lia |].
    replace (S k - 1)%nat with k by lia. split.
    + rewrite occurrence_succ. now apply next_step.
    + clear Hk. induction k as [| k IH].
      * rewrite occurrence_succ. now apply next_step.
      * rewrite occurrence_succ.
        pose proof (next_step interval (occurrence (Some interval) start (S k))
                      Hin) as (_ & Ht & _). congruence.
  - intros Hs. rewrite (occurrence_monthly start 2024 0 15 12 Hs) by lia.
    reflexivity.
Qed.

End NextDate.

Lemma occurrence_witness :
  In "MONTHLY"%string intervals
  /\ @occurrence utcRuntime (Some "MONTHLY"%string) 1705276800000 12
     = 1736899200000
  /\ @civilDate utcRuntime
       (@occurrence utcRuntime (Some "MONTHLY"%string) 1705276800000 12)
     = Civil.mk 2025 0 15.
Proof.
  assert (Hin : In "MONTHLY"%string intervals) by (cbn; tauto).
  split; [exact Hin |]. split; [reflexivity |].
  apply (@occurrence_strictly_increasing_calendar_spaced utcRuntime
           "MONTHLY"%string 1705276800000 Hin).
  reflexivity.
Defined.

(** ** checkBudgetAlerts: when the alert is sent *)

(** The percentage of a budget of zero: [+Infinity] over a positive sum,
    [NaN] over a sum of zero, [-Infinity] over a negative one; only the
    first reaches 80. *)
Lemma percentage_of_zero_budget (totalExpenses : float) :
  (80 <=? totalExpenses / 0 * 100)%float = (0 <? totalExpenses)%float.
Proof.
  rewrite leb_spec, ltb_spec, mul_spec, div_spec.
  change (Prim2SF 0) with (S754_zero false).
  destruct (Prim2SF totalExpenses) as [s | s | | s m e];
    try destruct s; reflexivity.
Qed.

Lemma opp_negative (x : float) :
  (0 <? x)%float = true -> (- x <? 0)%float = true.
Proof.
  rewrite !ltb_spec, opp_spec.
  change (Prim2SF 0) with (S754_zero false).
  destruct (Prim2SF x) as [s | s | | s m e]; try destruct s;
    cbn; congruence.
Qed.

Lemma abs_opp (x : float) : abs (- x) = abs x.
Proof.
  apply Prim2SF_inj. rewrite !abs_spec, opp_spec.
  destruct (Prim2SF x); reflexivity.
Qed.

Section Alerts.

Context `{Runtime}.

Lemma isNewMonth_spec lastAlertDate currentDate :
  isNewMonth lastAlertDate currentDate = true <->
  calendarMonth lastAlertDate <> calendarMonth currentDate.
Proof.
  unfold isNewMonth, calendarMonth.
  rewrite orb_true_iff, !negb_true_iff, !Z.eqb_neq. split.
  - intros [Hm | Hy] E; injection E; intros; contradiction.
  - intros Hne.
    destruct (Z.eq_dec (getMonth lastAlertDate) (getMonth currentDate)) as [Em |];
      [| now left].
    right. intros Ey. apply Hne. now rewrite Em, Ey.
Qed.

Lemma isNewMonth_false lastAlertDate currentDate :
  isNewMonth lastAlertDate currentDate = false <->
  calendarMonth lastAlertDate = calendarMonth currentDate.
Proof.
  pose proof (isNewMonth_spec lastAlertDate currentDate) as S.
  destruct (isNewMonth lastAlertDate currentDate); split; intros E.
  - discriminate.
  - exfalso. now apply (proj1 S).
  - destruct (Z.eq_dec (getMonth lastAlertDate) (getMonth currentDate)) as [Em | Nm],
      (Z.eq_dec (getFullYear lastAlertDate) (getFullYear currentDate)) as [Ey | Ny];
      unfold calendarMonth.
    + now rewrite Em, Ey.
    + exfalso. assert (false = true); [| discriminate].
      apply S. unfold calendarMonth. intros E'. injection E'. auto.
    + exfalso. assert (false = true); [| discriminate].
      apply S. unfold calendarMonth. intros E'. injection E'. auto.
    + exfalso. assert (false = true); [| discriminate].
      apply S. unfold calendarMonth. intros E'. injection E'. auto.
  - reflexivity.
Qed.

Lemma shouldAlert_spec budget totalExpenses now :
  shouldAlert budget totalExpenses now = true <->
  (80 <=? totalExpenses / toNumber (b_amount budget) * 100)%float = true
  /\ (b_lastAlertSent budget = None
      \/ exists last, b_lastAlertSent budget = Some last
                      /\ calendarMonth last <> calendarMonth now).
Proof.
  unfold shouldAlert, percentageUsed. rewrite andb_true_iff.
  destruct (b_lastAlertSent budget) as [last |]; cbn [newDate].
  - rewrite isNewMonth_spec. split.
    + intros [Hp Hn]. split; [exact Hp |]. right. now exists last.
    + intros [Hp [Hnone | (l & Hl & Hn)]]; [discriminate |].
      injection Hl as <-. now split.
  - split.
    + intros [Hp _]. split; [exact Hp | now left].
    + intros [Hp _]. now split.
Qed.

Variable fixed1 : float -> float.

(** A check that meets the condition throws: the amount is a string in
    the loop and has no [toFixed]. *)
Lemma serveBudgetCheck_outcome budget totalExpenses now :
  serveBudgetCheck fixed1 budget totalExpenses now
  = if shouldAlert budget totalExpenses now then Throws
    else Returns (false, budget).
Proof.
  unfold serveBudgetCheck.
  now destruct (shouldAlert budget totalExpenses now).
Qed.

(** C2, as the program has it.  With a budget amount of zero the division
    is not guarded and zero is not taken as "never alert": the condition
    of the alert is met exactly when the sum of expenses is positive (the
    percentage is then [+Infinity]) and the month of the last alert allows
    it.  Whenever the condition is not met the check returns without an
    alert and without an error; so it does with a sum of zero, where the
    percentage is [NaN]. *)
Theorem zero_amount_is_not_guarded (budget : Budget) (totalExpenses : float)
  (now : Z) :
  toNumber (b_amount budget) = 0%float ->
  (shouldAlert budget totalExpenses now = true <->
   (0 <? totalExpenses)%float = true
   /\ (b_lastAlertSent budget = None
       \/ exists last, b_lastAlertSent budget = Some last
            /\ (getMonth last, getFullYear last)
               <> (getMonth now, getFullYear now)))
  /\ (shouldAlert budget totalExpenses now = false ->
      serveBudgetCheck fixed1 budget totalExpenses now
      = Returns (false, budget))
  /\ (totalExpenses = 0%float ->
      serveBudgetCheck fixed1 budget totalExpenses now
      = Returns (false, budget)).
Proof.
  intros Hz. split; [| split].
  - rewrite shouldAlert_spec, Hz. now rewrite percentage_of_zero_budget.
  - intros Hq. now rewrite serveBudgetCheck_outcome, Hq.
  - intros ->. rewrite serveBudgetCheck_outcome.
    unfold shouldAlert, percentageUsed. rewrite Hz. reflexivity.
Qed.

End Alerts.

(** C1.  The check does not send the alert when the claim says it does:
    for a budget of 1000 not alerted yet and expenses of 850 the
    percentage is 85 and the condition of the [if] holds, and the check
    throws a TypeError at [budgetAmount.toFixed(1)], before [sendEmail]
    and [db.budget.update]: no alert is sent and [lastAlertSent] is not
    set. *)
Theorem budget_over_threshold_throws :
  @percentageUsed utcRuntime budget1000 850%float = 85%float
  /\ @shouldAlert utcRuntime budget1000 850%float 1710460800000 = true
  /\ @serveBudgetCheck utcRuntime noRounding budget1000 850%float
       1710460800000 = Throws.
Proof. repeat split. Qed.

(** C2, as stated, fails: for a budget of amount 0 with expenses of 50 and
    no alert sent yet the condition of the alert holds, and the check
    raises an error. *)
Lemma zero_amount_raises :
  @shouldAlert utcRuntime budget0 50%float 1710460800000 = true
  /\ @serveBudgetCheck utcRuntime noRounding budget0 50%float 1710460800000
     = Throws.
Proof. split; reflexivity. Qed.

Lemma zero_amount_witness :
  @serveBudgetCheck utcRuntime noRounding budget0 0%float 1710460800000
  = Returns (false, budget0).
Proof.
  apply (@zero_amount_is_not_guarded utcRuntime noRounding budget0 0%float
           1710460800000); reflexivity.
Defined.

(** ** Repeated checks of one budget *)

Lemma StronglySorted_lt_NoDup (l : list Z) : StronglySorted Z.lt l -> NoDup l.
Proof.
  induction 1 as [| a l Hs IH Hall]; constructor; auto.
  intros Hin. rewrite Forall_forall in Hall. specialize (Hall a Hin). lia.
Qed.

Lemma NoDup_of_map {A B} (f : A -> B) (l : list A) :
  NoDup (map f l) -> NoDup l.
Proof.
  induction l as [| a l IH]; cbn; intros Hn; constructor;
    inversion Hn as [| ? ? Hnotin Hrest]; subst; auto.
  intros Hin. apply Hnotin. now apply in_map.
Qed.

Section AlertRuns.

Context `{Runtime}.

Lemma monthNumber_mono t1 t2 : t1 <= t2 -> monthNumber t1 <= monthNumber t2.
Proof. intros Hle. apply monthIndex_mono. unfold LocalTime. lia. Qed.

Lemma calendarMonth_monthNumber t1 t2 :
  calendarMonth t1 = calendarMonth t2 <-> monthNumber t1 = monthNumber t2.
Proof.
  unfold monthNumber. rewrite monthIndex_inj. unfold calendarMonth, getMonth,
    getFullYear. split.
  - intros E. injection E. auto.
  - intros [Em Ey]. now rewrite Em, Ey.
Qed.

(** An alert sent at [now] after one sent at [last <= now] falls in a
    later month. *)
Lemma shouldAlert_later_month budget totalExpenses now last :
  b_lastAlertSent budget = Some last -> last <= now ->
  shouldAlert budget totalExpenses now = true ->
  monthNumber last < monthNumber now.
Proof.
  intros Hl Hle Hs. apply shouldAlert_spec in Hs as [_ [Hn | (l & El & Hne)]].
  - congruence.
  - assert (l = last) by congruence. subst l.
    rewrite calendarMonth_monthNumber in Hne.
    pose proof (monthNumber_mono _ _ Hle). lia.
Qed.

Lemma evaluateBudget_fired budget totalExpenses now budget' :
  evaluateBudget budget totalExpenses now = (true, budget') ->
  shouldAlert budget totalExpenses now = true
  /\ b_lastAlertSent budget' = Some now.
Proof.
  unfold evaluateBudget. destruct (shouldAlert budget totalExpenses now);
    intros E; inversion E; subst; auto.
Qed.

Lemma evaluateBudget_quiet budget totalExpenses now budget' :
  evaluateBudget budget totalExpenses now = (false, budget') ->
  budget' = budget.
Proof.
  unfold evaluateBudget. destruct (shouldAlert budget totalExpenses now);
    intros E; inversion E; subst; auto.
Qed.

(** After an alert at [last], checks in chronological order send their
    alerts in strictly later and later months. *)
Lemma runChecks_after_alert checks : forall budget last,
  b_lastAlertSent budget = Some last ->
  StronglySorted Z.le (last :: map snd checks) ->
  StronglySorted Z.lt
    (monthNumber last :: map monthNumber (fst (runChecks budget checks))).
Proof.
  induction checks as [| [totalExpenses now] rest IH]; intros budget last Hl Hs.
  - cbn. constructor; constructor.
  - cbn [runChecks].
    destruct (evaluateBudget budget totalExpenses now) as [fired budget'] eqn:E.
    destruct (runChecks budget' rest) as [later final] eqn:R.
    cbn [map snd] in Hs.
    apply StronglySorted_inv in Hs as [Hs Hall].
    pose proof Hs as Hs'. apply StronglySorted_inv in Hs' as [Hrest Hnow].
    inversion Hall as [| ? ? Hle Hall']; subst.
    destruct fired; cbn [fst map].
    + apply evaluateBudget_fired in E as [Hfire Hl'].
      pose proof (shouldAlert_later_month _ _ _ _ Hl Hle Hfire) as Hlt.
      specialize (IH budget' now Hl' Hs). rewrite R in IH. cbn [fst] in IH.
      constructor; [exact IH |].
      constructor; [exact Hlt |].
      apply StronglySorted_inv in IH as [_ Hlater].
      eapply Forall_impl; [| exact Hlater]. cbn. intros; lia.
    + apply evaluateBudget_quiet in E. subst budget'.
      assert (Hs2 : StronglySorted Z.le (last :: map snd rest)).
      { constructor; assumption. }
      specialize (IH budget last Hl Hs2). rewrite R in IH. exact IH.
Qed.

Lemma runChecks_months_increase checks : forall budget,
  StronglySorted Z.le (map snd checks) ->
  StronglySorted Z.lt (map monthNumber (fst (runChecks budget checks))).
Proof.
  induction checks as [| [totalExpenses now] rest IH]; intros budget Hs.
  - cbn. constructor.
  - cbn [runChecks].
    destruct (evaluateBudget budget totalExpenses now) as [fired budget'] eqn:E.
    destruct (runChecks budget' rest) as [later final] eqn:R.
    cbn [map snd] in Hs.
    destruct fired; cbn [fst].
    + apply evaluateBudget_fired in E as [_ Hl'].
      pose proof (runChecks_after_alert rest budget' now Hl' Hs) as Hr.
      rewrite R in Hr. exact Hr.
    + apply StronglySorted_inv in Hs as [Hs _].
      specialize (IH budget' Hs). rewrite R in IH. exact IH.
Qed.

(** C7.  Where a sent alert sets [lastAlertSent] to the instant of the
    check, checks made in chronological order never send two alerts in
    one calendar month: the (month, year) pairs of the instants at which
    alerts were sent are pairwise distinct.  And as long as
    [lastAlertSent] stays the instant [last], a check at any instant of
    the same month and year as [last] sends nothing and leaves the budget
    as it is, however often it is repeated. *)
Theorem alert_never_twice_in_a_month (budget : Budget)
  (checks : list (float * Z)) :
  StronglySorted Z.le (map snd checks) ->
  NoDup (map (fun t => (getMonth t, getFullYear t))
             (fst (runChecks budget checks)))
  /\ (forall last totalExpenses now,
        b_lastAlertSent budget = Some last ->
        (getMonth now, getFullYear now) = (getMonth last, getFullYear last) ->
        evaluateBudget budget totalExpenses now = (false, budget)).
Proof.
  intros Hs. split.
  - pose proof (runChecks_months_increase checks budget Hs) as Hinc.
    apply StronglySorted_lt_NoDup in Hinc.
    apply (NoDup_of_map (fun c : Z * Z => 12 * snd c + fst c)).
    rewrite map_map. exact Hinc.
  - intros last totalExpenses now Hl Hsame.
    unfold evaluateBudget, shouldAlert. rewrite Hl. cbn [newDate].
    assert (Hn : isNewMonth last now = false).
    { apply isNewMonth_false. unfold calendarMonth. now rewrite Hsame. }
    rewrite Hn, andb_false_r. reflexivity.
Qed.

End AlertRuns.

Lemma alert_never_twice_witness :
  let checks := [(850%float, 1710460800000); (900%float, 1710892800000);
                 (950%float, 1712102400000)] in
  let budget := {| b_id := "b1"%string;
                   b_amount := 1000%float : @Decimal utcRuntime;
                   b_lastAlertSent := None |} in
  fst (@runChecks utcRuntime budget checks) = [1710460800000; 1712102400000]
  /\ NoDup (map (fun t => (@getMonth utcRuntime t, @getFullYear utcRuntime t))
                (fst (@runChecks utcRuntime budget checks))).
Proof.
  cbv zeta. split; [reflexivity |].
  apply (@alert_never_twice_in_a_month utcRuntime).
  repeat constructor; cbn; lia.
Defined.

(** ** Recurring transactions *)

Section Recurring.

Context `{Runtime}.

(** C3.  A transaction is due exactly when it has no [lastProcessed] or
    its [nextRecurringDate], read by [new Date], is at or before [now]; a
    transaction without [lastProcessed] is due whatever its
    [nextRecurringDate] holds.  The function reads the transaction and the
    clock and returns a boolean: it has no access to the store. *)
Theorem isTransactionDue_iff (transaction : Transaction) (now : Z) :
  (isTransactionDue transaction now = true <->
   t_lastProcessed transaction = None
   \/ newDate (t_nextRecurringDate transaction) <= now)
  /\ (forall d, t_nextRecurringDate transaction = Some d ->
        (isTransactionDue transaction now = true <->
         t_lastProcessed transaction = None \/ d <= now))
  /\ (t_lastProcessed transaction = None ->
      isTransactionDue transaction now = true).
Proof.
  assert (Hiff : isTransactionDue transaction now = true <->
                 t_lastProcessed transaction = None
                 \/ newDate (t_nextRecurringDate transaction) <= now).
  { unfold isTransactionDue.
    destruct (t_lastProcessed transaction) as [p |].
    - rewrite Z.leb_le. split; [now right |].
      intros [Hn | Hle]; [discriminate | exact Hle].
    - split; [now left | reflexivity]. }
  split; [exact Hiff |]. split.
  - intros d Hd. rewrite Hiff, Hd. reflexivity.
  - intros Hn. apply Hiff. now left.
Qed.

(** C4.  The change of the balance is the amount, as a number, negated
    for an EXPENSE and as it is for an INCOME: the magnitude is that of
    the amount, and for a positive amount the change is negative for an
    EXPENSE and positive for an INCOME. *)
Theorem balanceChange_sign_matches_type (transaction : Transaction) :
  (forall a, t_amount transaction = Some a ->
     (t_type transaction = "EXPENSE"%string ->
      balanceChange transaction = (- toNumber a)%float)
     /\ (t_type transaction = "INCOME"%string ->
         balanceChange transaction = toNumber a))
  /\ abs (balanceChange transaction) = abs (amountValue transaction)
  /\ ((0 <? amountValue transaction)%float = true ->
      (t_type transaction = "EXPENSE"%string ->
       (balanceChange transaction <? 0)%float = true)
      /\ (t_type transaction = "INCOME"%string ->
          (0 <? balanceChange transaction)%float = true)).
Proof.
  unfold balanceChange. split; [| split].
  - intros a Ha. unfold amountValue. rewrite Ha. split; intros ->; reflexivity.
  - destruct (String.eqb (t_type transaction) "EXPENSE");
      [apply abs_opp | reflexivity].
  - intros Hpos. split; intros ->; cbn [String.eqb Ascii.eqb Bool.eqb].
    + now apply opp_negative.
    + exact Hpos.
Qed.

(** *** The query of triggerRecurringTransactions *)

Lemma dueWhere_spec now t :
  dueWhere now t = true <->
  t_isRecurring t = true
  /\ t_status t = "COMPLETED"%string
  /\ (t_lastProcessed t = None
      \/ exists d, t_nextRecurringDate t = Some d /\ d <= now).
Proof.
  unfold dueWhere. rewrite !andb_true_iff, orb_true_iff, String.eqb_eq.
  split.
  - intros [[Hr Hst] Hd]. repeat split; auto.
    destruct Hd as [Hl | Hn].
    + left. now destruct (t_lastProcessed t).
    + right. destruct (t_nextRecurringDate t) as [d |]; [| discriminate].
      exists d. split; [reflexivity | now apply Z.leb_le].
  - intros (Hr & Hst & Hd). repeat split; auto.
    destruct Hd as [Hl | (d & Hd & Hle)].
    + left. now rewrite Hl.
    + right. rewrite Hd. now apply Z.leb_le.
Qed.

(** C8.  The query returns, in the order of the table, exactly the stored
    transactions that are recurring, COMPLETED and either never processed
    or with a [nextRecurringDate] at or before [now]; the store after it,
    and after the whole trigger, is the store before. *)
Theorem fetchRecurringTransactions_selects_due (s : Store) (now : Z) :
  exists selected,
    fetchRecurringTransactions now s = Some (selected, s)
    /\ triggerRecurringTransactions now s = Some (map eventOf selected, s)
    /\ selected = filter (dueWhere now) (transactions s)
    /\ forall t,
         In t selected <->
         In t (transactions s)
         /\ t_isRecurring t = true
         /\ t_status t = "COMPLETED"%string
         /\ (t_lastProcessed t = None
             \/ exists d, t_nextRecurringDate t = Some d /\ d <= now).
Proof.
  exists (filter (dueWhere now) (transactions s)).
  split; [reflexivity |]. split; [reflexivity |]. split; [reflexivity |].
  intros t. rewrite filter_In, dueWhere_spec. reflexivity.
Qed.

End Recurring.

(** ** processRecurringTransaction on the store *)

Section Processing.

Context `{Runtime}.

Lemma calculate_malformed now interval :
  ~ wellFormedInterval interval ->
  calculateNextRecurringDate now interval = now.
Proof.
  intros Hbad. unfold calculateNextRecurringDate.
  destruct interval as [i |]; [| reflexivity].
  destruct (String.eqb_spec i "DAILY") as [-> | _].
  { exfalso. apply Hbad. exists "DAILY"%string. cbn. tauto. }
  destruct (String.eqb_spec i "WEEKLY") as [-> | _].
  { exfalso. apply Hbad. exists "WEEKLY"%string. cbn. tauto. }
  destruct (String.eqb_spec i "MONTHLY") as [-> | _].
  { exfalso. apply Hbad. exists "MONTHLY"%string. cbn. tauto. }
  destruct (String.eqb_spec i "YEARLY") as [-> | _].
  { exfalso. apply Hbad. exists "YEARLY"%string. cbn. tauto. }
  reflexivity.
Qed.

Lemma existsb_id_In (l : list Transaction) (t : Transaction) :
  In t l -> existsb (fun u => String.eqb (t_id u) (t_id t)) l = true.
Proof.
  intros Hin. apply existsb_exists. exists t. split; [exact Hin |].
  apply String.eqb_refl.
Qed.

(** A due transaction that the event names is processed: when the new
    identifier is unused and the account exists, the three writes commit. *)
Lemma process_due event now newId s transaction :
  emptyString (transactionId event) = false ->
  emptyString (userId event) = false ->
  findUnique (transactionId event) (userId event) s
    = Some (Some transaction, s) ->
  isTransactionDue transaction now = true ->
  existsb (fun u => String.eqb (t_id u) newId) (transactions s) = false ->
  existsb (fun a => String.eqb (a_id a) (t_accountId transaction))
          (accounts s) = true ->
  processRecurringTransaction event now newId s
  = Some (tt, committed transaction now newId s).
Proof.
  intros He1 He2 Hfind Hdue Hfresh Hacc.
  unfold processRecurringTransaction. rewrite He1, He2. cbn [orb].
  unfold bind at 1. rewrite Hfind. rewrite Hdue. cbn [negb].
  unfold bind, createTransaction. cbn [t_id recurringEntry].
  rewrite Hfresh. unfold incrementBalance. cbn [transactions accounts].
  rewrite Hacc. unfold updateTransaction. cbn [transactions accounts].
  assert (Hin : In transaction (transactions s)).
  { unfold findUnique in Hfind. injection Hfind as Hf.
    now apply find_some in Hf. }
  rewrite existsb_app, (existsb_id_In _ _ Hin). cbn [orb].
  reflexivity.
Qed.

(** What a run that returns can have done to the store: nothing, or the
    three writes for a stored transaction that was due. *)
Lemma process_cases event now newId s s' :
  processRecurringTransaction event now newId s = Some (tt, s') ->
  s' = s
  \/ exists transaction,
       In transaction (transactions s)
       /\ isTransactionDue transaction now = true
       /\ ~ In newId (ids s)
       /\ s' = committed transaction now newId s.
Proof.
  unfold processRecurringTransaction.
  destruct (emptyString (transactionId event) || emptyString (userId event)).
  { intros E. injection E as <-. now left. }
  unfold bind at 1. unfold findUnique.
  destruct (find _ (transactions s)) as [transaction |] eqn:Hfind.
  2:{ intros E. injection E as <-. now left. }
  destruct (isTransactionDue transaction now) eqn:Hdue; cbn [negb].
  2:{ intros E. injection E as <-. now left. }
  unfold bind, createTransaction. cbn [t_id recurringEntry].
  destruct (existsb (fun u => String.eqb (t_id u) newId) (transactions s))
    eqn:Hfresh; [discriminate |].
  unfold incrementBalance. cbn [transactions accounts].
  destruct (existsb (fun a => String.eqb (a_id a) (t_accountId transaction))
              (accounts s)); [| discriminate].
  unfold updateTransaction. cbn [transactions accounts].
  destruct (existsb _ (transactions s ++ _)); [| discriminate].
  intros E. injection E as <-. right. exists transaction.
  apply find_some in Hfind as [Hin _].
  repeat split; auto.
  intros Hid. unfold ids in Hid. apply in_map_iff in Hid as (u & Hu & Hin').
  assert (Hex : existsb (fun u => String.eqb (t_id u) newId) (transactions s)
                = true).
  { apply existsb_exists. exists u. split; [exact Hin' |].
    now apply String.eqb_eq. }
  congruence.
Qed.

(** C9, as the program has it.  A due transaction whose interval is none
    of the four names (or is [null]) is not skipped: with an unused
    identifier for the new row and an existing account, the run returns
    without an error and commits the ledger entry, the change of the
    balance and [lastProcessed = now] as for any due transaction, with
    [nextRecurringDate] set to [now] itself. *)
Theorem malformed_interval_is_processed (event : Event) (now : Z)
  (newId : string) (s : Store) (transaction : Transaction) :
  emptyString (transactionId event) = false ->
  emptyString (userId event) = false ->
  findUnique (transactionId event) (userId event) s
    = Some (Some transaction, s) ->
  isTransactionDue transaction now = true ->
  ~ wellFormedInterval (t_recurringInterval transaction) ->
  existsb (fun u => String.eqb (t_id u) newId) (transactions s) = false ->
  existsb (fun a => String.eqb (a_id a) (t_accountId transaction))
          (accounts s) = true ->
  processRecurringTransaction event now newId s
  = Some (tt, committed transaction now newId s)
  /\ calculateNextRecurringDate now (t_recurringInterval transaction) = now
  /\ In (recurringEntry transaction now newId)
        (transactions (committed transaction now newId s))
  /\ In (markProcessed now now transaction)
        (transactions (committed transaction now newId s)).
Proof.
  intros He1 He2 Hfind Hdue Hbad Hfresh Hacc.
  pose proof (calculate_malformed now _ Hbad) as Hnext.
  split; [now apply process_due |]. split; [exact Hnext |].
  assert (Hin : In transaction (transactions s)).
  { unfold findUnique in Hfind. injection Hfind as Hf.
    now apply find_some in Hf. }
  unfold committed. cbn [transactions]. rewrite Hnext. split.
  - apply in_map_iff. exists (recurringEntry transaction now newId). split.
    + cbn [recurringEntry t_id].
      destruct (String.eqb_spec newId (t_id transaction)) as [E | _];
        [| reflexivity].
      exfalso. subst newId.
      pose proof (existsb_id_In _ _ Hin). congruence.
    + apply in_or_app. right. now left.
  - apply in_map_iff. exists transaction. split.
    + now rewrite String.eqb_refl.
    + apply in_or_app. now left.
Qed.

End Processing.

(** C9, as stated, fails: the transaction [rent], due and with the
    interval BIWEEKLY, is processed; the store then holds the new ledger
    entry, a balance lowered from 500 to 400 and the stamped row. *)
Lemma malformed_interval_not_skipped :
  ~ wellFormedInterval (t_recurringInterval rent)
  /\ isTransactionDue rent 1709251200000 = true
  /\ @processRecurringTransaction utcRuntime rentEvent 1709251200000 "n1" rentStore
     = Some (tt,
         {| transactions :=
              [ markProcessed 1709251200000 1709251200000 rent;
                recurringEntry rent 1709251200000 "n1" ];
            accounts := [ {| a_id := "a1";
                             a_balance := 400%float : @Decimal utcRuntime |} ]
         |})
  /\ @processRecurringTransaction utcRuntime rentEvent 1709251200000 "n1" rentStore
     <> Some (tt, rentStore).
Proof.
  assert (Hbad : ~ wellFormedInterval (t_recurringInterval rent)).
  { intros (i & Hi & Hin). injection Hi as <-. cbn in Hin.
    repeat (destruct Hin as [Hin | Hin]; [discriminate |]). exact Hin. }
  split; [exact Hbad |]. split; [reflexivity |]. split; [reflexivity |].
  intros E. discriminate E.
Qed.

Lemma malformed_interval_witness :
  @processRecurringTransaction utcRuntime rentEvent 1709251200000 "n1" rentStore
  = Some (tt, committed rent 1709251200000 "n1" rentStore)
  /\ @calculateNextRecurringDate utcRuntime 1709251200000
      (t_recurringInterval rent)
     = 1709251200000
  /\ In (recurringEntry rent 1709251200000 "n1")
        (transactions (committed rent 1709251200000 "n1" rentStore))
  /\ In (markProcessed 1709251200000 1709251200000 rent)
        (transactions (committed rent 1709251200000 "n1" rentStore)).
Proof.
  apply (@malformed_interval_is_processed utcRuntime rentEvent 1709251200000
           "n1" rentStore rent); try reflexivity.
  intros (i & Hi & Hin). injection Hi as <-. cbn in Hin.
  repeat (destruct Hin as [Hin | Hin]; [discriminate |]). exact Hin.
Defined.

(** ** The scheduler never makes a template of an entry it created *)

Section Templates.

Context `{Runtime}.

Lemma markProcessed_keeps last next t :
  t_id (markProcessed last next t) = t_id t
  /\ t_isRecurring (markProcessed last next t) = t_isRecurring t.
Proof. split; reflexivity. Qed.

(** The rows of the store after the three writes: each is a row of the
    store before, possibly stamped, or the new row. *)
Lemma committed_rows transaction now newId s t :
  In t (transactions (committed transaction now newId s)) ->
  (exists u, In u (transactions s)
             /\ t_id t = t_id u /\ t_isRecurring t = t_isRecurring u)
  \/ (t_id t = newId /\ t_isRecurring t = false).
Proof.
  unfold committed. cbn [transactions]. intros Hin.
  apply in_map_iff in Hin as (u & Hu & Hin).
  assert (Hkeep : t_id t = t_id u /\ t_isRecurring t = t_isRecurring u).
  { destruct (String.eqb (t_id u) (t_id transaction)); subst t;
      [apply markProcessed_keeps | split; reflexivity]. }
  apply in_app_or in Hin as [Hold | [Hnew | []]].
  - left. now exists u.
  - right. subst u. exact Hkeep.
Qed.

Lemma committed_ids transaction now newId s :
  ids (committed transaction now newId s) = ids s ++ [newId].
Proof.
  unfold ids, committed. cbn [transactions]. rewrite map_map.
  rewrite <- (map_ext (fun t => t_id t)).
  - now rewrite map_app.
  - intros t. destruct (String.eqb (t_id t) (t_id transaction)); reflexivity.
Qed.

Lemma templatesKept_step s0 c c' :
  templatesKept s0 c -> step c c' -> templatesKept s0 c'.
Proof.
  intros (Hrec & Hev & Hids) Hstep.
  destruct Hstep as [now s q s' events Htrig | now newId s q1 e q2 s' Hproc];
    cbn [fst snd] in *.
  - unfold triggerRecurringTransactions, bind, fetchRecurringTransactions,
      findMany, ret in Htrig.
    injection Htrig as <- <-.
    repeat split; auto.
    intros e Hin. apply in_app_or in Hin as [Hin | Hin]; [now apply Hev |].
    apply in_map_iff in Hin as (t & <- & Hin).
    apply filter_In in Hin as [Hin Hdue]. cbn [eventOf transactionId].
    apply Hrec; [exact Hin |].
    unfold dueWhere in Hdue. rewrite !andb_true_iff in Hdue. tauto.
  - assert (Hev' : forall e', In e' (q1 ++ q2) ->
                              In (transactionId e') (ids s0)).
    { intros e' Hin. apply Hev. apply in_or_app.
      apply in_app_or in Hin as [Hin | Hin]; [now left | right; now right]. }
    apply process_cases in Hproc as [-> | (tr & Hin & Hdue & Hfresh & ->)].
    + repeat split; auto.
    + repeat split; cbn [fst snd]; auto.
      * intros t Ht Hr.
        apply committed_rows in Ht as [(u & Hu & Hid & Hru) | [_ Hf]].
        -- rewrite Hid. apply Hrec; [exact Hu | congruence].
        -- congruence.
      * intros i Hi. rewrite committed_ids. apply in_or_app. left. auto.
Qed.

Lemma templatesKept_reachable s0 c : reachable s0 c -> templatesKept s0 c.
Proof.
  induction 1 as [| c c' Hreach IH Hstep].
  - repeat split; cbn [fst snd]; auto.
    + intros t Hin _. unfold ids. now apply in_map.
    + intros e [].
  - eapply templatesKept_step; eauto.
Qed.

(** C10.  The row that a firing creates is not recurring and bears an
    identifier that no row had; and in every state the scheduler can
    reach from a store [s0], a row that is not one of [s0] (by its
    identifier), that is a row some firing created, is not recurring, is
    selected by the query of the trigger at no instant, and is named by no
    pending event; the rows of [s0] all remain. *)
Theorem spawned_entries_never_recur (s0 s : Store) (q : list Event) :
  reachable s0 (s, q) ->
  (forall t, In t (transactions s) -> ~ In (t_id t) (ids s0) ->
     t_isRecurring t = false
     /\ (forall now, ~ In t (filter (dueWhere now) (transactions s)))
     /\ (forall e, In e q -> transactionId e <> t_id t))
  /\ (forall i, In i (ids s0) -> In i (ids s))
  /\ (forall e now newId s',
        processRecurringTransaction e now newId s = Some (tt, s') ->
        forall t, In t (transactions s') -> ~ In (t_id t) (ids s) ->
                  t_isRecurring t = false /\ t_id t = newId).
Proof.
  intros Hreach.
  apply templatesKept_reachable in Hreach as (Hrec & Hev & Hids).
  cbn [fst snd] in *. split; [| split; [exact Hids |]].
  - intros t Hin Hnew.
    assert (Hf : t_isRecurring t = false).
    { destruct (t_isRecurring t) eqn:E; [| reflexivity].
      exfalso. apply Hnew. now apply Hrec. }
    split; [exact Hf |]. split.
    + intros now Hsel. apply filter_In in Hsel as [_ Hdue].
      unfold dueWhere in Hdue. rewrite Hf in Hdue. discriminate.
    + intros e He Heq. apply Hnew. rewrite <- Heq. now apply Hev.
  - intros e now newId s' Hproc t Hin Hnew.
    apply process_cases in Hproc as [-> | (tr & Htr & Hdue & Hfresh & ->)].
    + exfalso. apply Hnew. unfold ids. now apply in_map.
    + apply committed_rows in Hin as [(u & Hu & Hid & _) | [Hid Hf]].
      * exfalso. apply Hnew. rewrite Hid. unfold ids. now apply in_map.
      * now split.
Qed.

End Templates.

Lemma gymStoreAfter_reachable : reachable gymStore (gymStoreAfter, []).
Proof.
  eapply reach_step.
  - eapply reach_step; [apply reach_init |].
    apply (step_trigger 1709251200000 gymStore [] gymStore
             [eventOf gym]).
    reflexivity.
  - apply (step_process 1709251200000 "n1" gymStore [] (eventOf gym) []
             gymStoreAfter).
    reflexivity.
Defined.

Lemma spawned_entries_witness :
  let spawned := recurringEntry gym 1709251200000 "n1" in
  In spawned (transactions gymStoreAfter)
  /\ t_isRecurring spawned = false
  /\ (forall now,
        ~ In spawned (filter (dueWhere now) (transactions gymStoreAfter))).
Proof.
  cbv zeta. split; [right; left; reflexivity |].
  destruct (@spawned_entries_never_recur utcRuntime gymStore gymStoreAfter []
              gymStoreAfter_reachable) as (Hspawned & _ & _).
  destruct (Hspawned (recurringEntry gym 1709251200000 "n1")) as (Hf & Hsel & _).
  - right; left; reflexivity.
  - cbn. intros [E | []]. discriminate E.
  - split; [exact Hf | exact Hsel].
Defined.

(** * Further properties of functions.js *)

(** ** Months as ranges of day numbers *)

(** [MakeDay] depends on the year and the month only through the number
    of the month counted from year 0. *)
Lemma MakeDay_index y1 m1 y2 m2 dd :
  12 * y1 + m1 = 12 * y2 + m2 -> MakeDay y1 m1 dd = MakeDay y2 m2 dd.
Proof.
  intros E. unfold MakeDay.
  replace (y2 + m2 / 12) with (y1 + m1 / 12) by lia.
  replace (m2 mod 12) with (m1 mod 12) by lia.
  reflexivity.
Qed.

Lemma MakeDay_next_month_any y m dd :
  MakeDay y (m + 1) dd
  = MakeDay y m dd + daysInMonth (y + m / 12) (m mod 12).
Proof.
  rewrite (MakeDay_index y (m + 1) (y + m / 12) (m mod 12 + 1)) by lia.
  rewrite (MakeDay_index y m (y + m / 12) (m mod 12)) by lia.
  apply MakeDay_next_month. lia.
Qed.

(** The calendar fields of a day given as the [dd]-th day of a month, for
    any month number and a day that may pass the end of the month by less
    than a month: the carry goes into the following month. *)
Lemma fields_of_MakeDay lt y m dd :
  Day lt = MakeDay y m dd ->
  let len := daysInMonth (y + m / 12) (m mod 12) in
  1 <= dd <= len + 28 ->
  if dd <=? len
  then monthIndex lt = 12 * y + m /\ DateFromTime lt = dd
  else monthIndex lt = 12 * y + m + 1 /\ DateFromTime lt = dd - len.
Proof.
  intros HD len Hd.
  destruct (Z.leb_spec dd len) as [Hle | Hgt].
  - rewrite (MakeDay_index y m (y + m / 12) (m mod 12)) in HD by lia.
    assert (Hm : 0 <= m mod 12 < 12) by lia.
    destruct (fields_of_day lt (y + m / 12) (m mod 12) dd Hm
                ltac:(fold len; lia) HD) as (HY & HM & HDt).
    unfold monthIndex. rewrite HY, HM. split; [lia | exact HDt].
  - assert (HD' : Day lt = MakeDay y (m + 1) (dd - len)).
    { rewrite HD, MakeDay_next_month_any. fold len. unfold MakeDay. lia. }
    rewrite (MakeDay_index y (m + 1) (y + (m + 1) / 12) ((m + 1) mod 12))
      in HD' by lia.
    pose proof (daysInMonth_range (y + (m + 1) / 12) ((m + 1) mod 12)).
    assert (Hm : 0 <= (m + 1) mod 12 < 12) by lia.
    destruct (fields_of_day lt (y + (m + 1) / 12) ((m + 1) mod 12) (dd - len)
                Hm ltac:(lia) HD') as (HY & HM & HDt).
    unfold monthIndex. rewrite HY, HM. split; [lia | exact HDt].
Qed.

(** A day is on or after the first of a month exactly when its month
    number is that month's or a later one. *)
Lemma first_of_month_le lt y m :
  MakeDay y m 1 <= Day lt <-> 12 * y + m <= monthIndex lt.
Proof.
  split.
  - intros Hle.
    set (t1 := MakeDate (MakeDay y m 1) 0).
    assert (H1 : Day t1 = MakeDay y m 1)
      by (apply Day_MakeDate; unfold msPerDay; lia).
    pose proof (daysInMonth_range (y + m / 12) (m mod 12)) as Hr.
    pose proof (fields_of_MakeDay t1 y m 1 H1 ltac:(lia)) as F.
    cbv zeta in F.
    destruct (Z.leb_spec 1 (daysInMonth (y + m / 12) (m mod 12))); [| lia].
    destruct F as [F _]. rewrite <- F. apply monthIndex_mono.
    unfold t1, MakeDate, Day, msPerDay in *. lia.
  - intros Hidx.
    destruct (Z_le_gt_dec (MakeDay y m 1) (Day lt)) as [| Hgt]; [assumption |].
    exfalso.
    set (t0 := MakeDate (MakeDay y m 1 - 1) (msPerDay - 1)).
    assert (H0 : Day t0 = MakeDay y (m - 1)
                            (daysInMonth (y + (m - 1) / 12) ((m - 1) mod 12))).
    { unfold t0. rewrite Day_MakeDate by (unfold msPerDay; lia).
      pose proof (MakeDay_next_month_any y (m - 1) 1) as E.
      replace (m - 1 + 1) with m in E by lia. rewrite E.
      unfold MakeDay. lia. }
    pose proof (daysInMonth_range (y + (m - 1) / 12) ((m - 1) mod 12)) as Hr.
    pose proof (fields_of_MakeDay t0 y (m - 1) _ H0 ltac:(lia)) as F.
    cbv zeta in F. rewrite Z.leb_refl in F. destruct F as [F _].
    assert (Hle : lt <= t0).
    { unfold t0, MakeDate, Day, msPerDay in *. lia. }
    pose proof (monthIndex_mono _ _ Hle). lia.
Qed.

(** The days of a month are those from its first day to the day before the
    first of the following month. *)
Lemma month_of_day lt y m :
  monthIndex lt = 12 * y + m <->
  MakeDay y m 1 <= Day lt < MakeDay y (m + 1) 1.
Proof.
  pose proof (first_of_month_le lt y m).
  pose proof (first_of_month_le lt y (m + 1)).
  lia.
Qed.

Lemma monthIndex_fields lt y m :
  0 <= m < 12 ->
  (monthIndex lt = 12 * y + m <-> YearFromTime lt = y /\ MonthFromTime lt = m).
Proof.
  intros Hm. unfold monthIndex. pose proof (MonthFromTime_range lt). lia.
Qed.

Lemma Day_fields lt :
  Day lt = MakeDay (YearFromTime lt) (MonthFromTime lt) 1 + DateFromTime lt - 1.
Proof. rewrite <- (MakeDay_fields lt). unfold MakeDay. lia. Qed.

Section DateExtras.

Context `{Runtime}.

Lemma LocalTime_le a b : a <= b <-> LocalTime a <= LocalTime b.
Proof. unfold LocalTime. lia. Qed.

Lemma monthNumber_fields t1 t2 :
  monthNumber t1 = monthNumber t2 <->
  getFullYear t1 = getFullYear t2 /\ getMonth t1 = getMonth t2.
Proof.
  unfold monthNumber, getFullYear, getMonth. rewrite monthIndex_inj. tauto.
Qed.

(** *** The window of getMonthlyStats *)

Lemma monthStart_local month :
  ~ (0 <= getFullYear month <= 99) ->
  LocalTime (monthStart month)
  = MakeDate (MakeDay (getFullYear month) (getMonth month) 1) 0.
Proof.
  intros Hy. unfold monthStart, newDateOf, MakeFullYear.
  rewrite LocalTime_UTC.
  destruct (Z.leb_spec 0 (getFullYear month)),
    (Z.leb_spec (getFullYear month) 99); cbn [andb]; try reflexivity; lia.
Qed.

Lemma monthEnd_local month :
  ~ (0 <= getFullYear month <= 99) ->
  LocalTime (monthEnd month)
  = MakeDate (MakeDay (getFullYear month) (getMonth month + 1) 0) 0.
Proof.
  intros Hy. unfold monthEnd, newDateOf, MakeFullYear.
  rewrite LocalTime_UTC.
  destruct (Z.leb_spec 0 (getFullYear month)),
    (Z.leb_spec (getFullYear month) 99); cbn [andb]; try reflexivity; lia.
Qed.

Lemma month_window month date :
  ~ (0 <= getFullYear month <= 99) ->
  (monthStart month <= date <= monthEnd month <->
   getFullYear date = getFullYear month
   /\ getMonth date = getMonth month
   /\ (getDate date < daysInMonth (getFullYear month) (getMonth month)
       \/ timeOfDay date = 0)).
Proof.
  intros Hy.
  rewrite (LocalTime_le (monthStart month) date).
  rewrite (LocalTime_le date (monthEnd month)).
  rewrite monthStart_local, monthEnd_local by assumption.
  unfold getFullYear, getMonth, getDate, timeOfDay.
  set (lt := LocalTime date). set (y := YearFromTime (LocalTime month)).
  set (m := MonthFromTime (LocalTime month)).
  assert (Hm : 0 <= m < 12) by apply MonthFromTime_range.
  pose proof (month_of_day lt y m) as Hmonth.
  pose proof (monthIndex_fields lt y m Hm) as Hfields.
  pose proof (MakeDay_next_month y m 0 Hm) as Hend.
  pose proof (MakeDay_next_month y m 1 Hm) as Hnext.
  pose proof (Day_fields lt) as Hday.
  pose proof (DateFromTime_range lt) as Hdate.
  pose proof (TimeWithinDay_range lt) as Htod.
  assert (Hlt : lt = Day lt * msPerDay + TimeWithinDay lt).
  { pose proof (MakeDate_Day lt) as E. unfold MakeDate in E. lia. }
  assert (H1 : MakeDay y m 0 = MakeDay y m 1 - 1) by (unfold MakeDay; lia).
  unfold MakeDate. unfold msPerDay in *. split.
  - intros [Hlo Hhi].
    assert (Hin : MakeDay y m 1 <= Day lt < MakeDay y (m + 1) 1) by lia.
    apply Hmonth in Hin. apply Hfields in Hin as [EY EM].
    split; [exact EY |]. split; [exact EM |].
    rewrite EY, EM in Hday. lia.
  - intros (EY & EM & Hd).
    assert (Hidx : monthIndex lt = 12 * y + m) by (apply Hfields; now split).
    apply Hmonth in Hidx. rewrite EY, EM in Hday, Hdate. lia.
Qed.

(** X: rows of the monthly report.  For a month outside the years 0 to 99,
    [getMonthlyStats] leaves the store as it is and reduces exactly the
    rows of the user that are dated in that calendar month before the
    month's last day, or on the last day at 00:00:00.000 local time: the
    upper bound of the query is the midnight that begins the last day, so
    a row dated later on the last day is left out. *)
Theorem getMonthlyStats_rows (userId : string) (month : Z) (s : Store) :
  ~ (0 <= getFullYear month <= 99) ->
  exists rows,
    getMonthlyStats userId month s = Some (reduceStats rows, s)
    /\ forall t,
         In t rows <->
         In t (transactions s)
         /\ t_userId t = userId
         /\ getFullYear (t_date t) = getFullYear month
         /\ getMonth (t_date t) = getMonth month
         /\ (getDate (t_date t)
               < daysInMonth (getFullYear month) (getMonth month)
             \/ timeOfDay (t_date t) = 0).
Proof.
  intros Hy.
  exists (filter (monthlyWhere userId (monthStart month) (monthEnd month))
            (transactions s)).
  split; [reflexivity |].
  intros t. rewrite filter_In. unfold monthlyWhere.
  rewrite !andb_true_iff, String.eqb_eq, !Z.leb_le.
  pose proof (month_window month (t_date t) Hy) as W. tauto.
Qed.

(** *** The start of the period of checkBudgetAlerts *)

Lemma budgetPeriodStart_local now :
  LocalTime (budgetPeriodStart now)
  = MakeDate (MakeDay (getFullYear now) (getMonth now) 1)
             (TimeWithinDay (LocalTime now)).
Proof.
  unfold budgetPeriodStart, setDate. cbv zeta. now rewrite LocalTime_UTC.
Qed.

(** X: the period of a budget check.  [startDate] is the first day of the
    month of [now] at the time of day of [now], and is not after [now];
    the expenses summed are those of the user and account dated at or
    after it: in a later month, or in the month of [now] after its first
    day, or on the first day at the time of day of [now] or later.  There
    is no upper bound, and an expense of the first day dated before the
    time of day of the check is not counted. *)
Theorem budget_period_rows (userId accountId : string) (now : Z)
  (t : Transaction) :
  (civilDate (budgetPeriodStart now)
     = Civil.mk (getFullYear now) (getMonth now) 1
   /\ timeOfDay (budgetPeriodStart now) = timeOfDay now
   /\ budgetPeriodStart now <= now)
  /\ (expenseWhere userId accountId (budgetPeriodStart now) t = true <->
      t_userId t = userId
      /\ t_accountId t = accountId
      /\ t_type t = "EXPENSE"%string
      /\ (monthNumber now < monthNumber (t_date t)
          \/ (monthNumber (t_date t) = monthNumber now
              /\ (1 < getDate (t_date t)
                  \/ timeOfDay now <= timeOfDay (t_date t))))).
Proof.
  pose proof (MonthFromTime_range (LocalTime now)) as Hm.
  pose proof (TimeWithinDay_range (LocalTime now)) as Htod.
  pose proof (daysInMonth_range (getFullYear now) (getMonth now)) as Hlen.
  split; [split; [| split] |].
  - rewrite civilDate_fieldsL, budgetPeriodStart_local.
    apply fieldsL_of_day; try assumption; try lia.
    now apply Day_MakeDate.
  - unfold timeOfDay. rewrite budgetPeriodStart_local.
    now apply TimeWithinDay_MakeDate.
  - apply LocalTime_le. rewrite budgetPeriodStart_local.
    pose proof (Day_fields (LocalTime now)) as Hd.
    pose proof (DateFromTime_range (LocalTime now)).
    pose proof (MakeDate_Day (LocalTime now)) as E.
    unfold getFullYear, getMonth, MakeDate, msPerDay in *. lia.
  - unfold expenseWhere.
    rewrite !andb_true_iff, !String.eqb_eq, Z.leb_le.
    rewrite (LocalTime_le (budgetPeriodStart now) (t_date t)).
    rewrite budgetPeriodStart_local.
    unfold monthNumber, getDate, timeOfDay, getFullYear, getMonth.
    set (lt := LocalTime (t_date t)). set (ln := LocalTime now) in *.
    set (y := YearFromTime ln) in *. set (m := MonthFromTime ln) in *.
    pose proof (first_of_month_le lt y m) as Hfirst.
    pose proof (first_of_month_le lt y (m + 1)) as Hnext.
    pose proof (monthIndex_fields lt y m Hm) as Hfields.
    pose proof (Day_fields lt) as Hday.
    pose proof (DateFromTime_range lt) as Hdate.
    pose proof (TimeWithinDay_range lt) as Htod'.
    pose proof (MakeDay_next_month y m 1 Hm) as Hn.
    pose proof (daysInMonth_range y m) as Hlen'.
    assert (Hlt : lt = Day lt * msPerDay + TimeWithinDay lt).
    { pose proof (MakeDate_Day lt) as E. unfold MakeDate in E. lia. }
    assert (Hidx : monthIndex ln = 12 * y + m) by reflexivity.
    assert (Hsame : monthIndex lt = 12 * y + m ->
                    Day lt = MakeDay y m 1 + DateFromTime lt - 1).
    { intros E. apply Hfields in E as [EY EM]. now rewrite EY, EM in Hday. }
    unfold MakeDate, msPerDay in *.
    split.
    + intros (((Hu & Ha) & Ht) & Hge). repeat split; auto.
      destruct (Z.eq_dec (monthIndex lt) (12 * y + m)) as [E | NE].
      * right. specialize (Hsame E). split; [lia |]. lia.
      * left. lia.
    + intros (Hu & Ha & Ht & Hd). repeat split; auto.
      destruct Hd as [Hlater | [E Hd]].
      * lia.
      * rewrite Hidx in E. specialize (Hsame E). lia.
Qed.

(** *** The month of the monthly report *)

(** X: the month that generateMonthlyReports reports on.  Setting the
    month of [now] back by one keeps the day of the month when the
    previous month has that day, and the result is then in the previous
    month (always so on the first of a month, when the job is scheduled);
    when the previous month is shorter than the day of [now], the days
    beyond its end carry over and the result is in the month of [now]
    itself.  The time of day is kept. *)
Theorem lastMonthOf_month (now : Z) :
  let previousLength :=
    if getMonth now =? 0 then daysInMonth (getFullYear now - 1) 11
    else daysInMonth (getFullYear now) (getMonth now - 1) in
  (getDate now <= previousLength ->
   monthNumber (lastMonthOf now) = monthNumber now - 1
   /\ getDate (lastMonthOf now) = getDate now)
  /\ (previousLength < getDate now ->
      monthNumber (lastMonthOf now) = monthNumber now
      /\ getDate (lastMonthOf now) = getDate now - previousLength)
  /\ (getDate now = 1 ->
      monthNumber (lastMonthOf now) = monthNumber now - 1)
  /\ timeOfDay (lastMonthOf now) = timeOfDay now.
Proof.
  cbv zeta.
  pose proof (MonthFromTime_range (LocalTime now)) as Hm.
  pose proof (DateFromTime_range (LocalTime now)) as Hd.
  pose proof (TimeWithinDay_range (LocalTime now)) as Htod.
  pose proof (daysInMonth_range (YearFromTime (LocalTime now))
                (MonthFromTime (LocalTime now))) as Hlen.
  set (y := YearFromTime (LocalTime now)) in *.
  set (m := MonthFromTime (LocalTime now)) in *.
  set (d := DateFromTime (LocalTime now)) in *.
  set (lt := MakeDate (MakeDay y (m - 1) d) (TimeWithinDay (LocalTime now))).
  assert (Hlocal : LocalTime (lastMonthOf now) = lt).
  { unfold lastMonthOf, setMonth. cbv zeta. now rewrite LocalTime_UTC. }
  assert (HD : Day lt = MakeDay y (m - 1) d) by now apply Day_MakeDate.
  assert (Hprev : (if getMonth now =? 0 then daysInMonth (getFullYear now - 1) 11
                   else daysInMonth (getFullYear now) (getMonth now - 1))
                  = daysInMonth (y + (m - 1) / 12) ((m - 1) mod 12)).
  { unfold getMonth, getFullYear. fold y m.
    destruct (Z.eqb_spec m 0) as [E | NE].
    - rewrite E. reflexivity.
    - replace ((m - 1) / 12) with 0 by lia.
      replace ((m - 1) mod 12) with (m - 1) by lia.
      now rewrite Z.add_0_r. }
  rewrite Hprev.
  pose proof (daysInMonth_range (y + (m - 1) / 12) ((m - 1) mod 12)) as Hpl.
  pose proof (fields_of_MakeDay lt y (m - 1) d HD ltac:(lia)) as F.
  cbv zeta in F.
  unfold monthNumber, getDate, timeOfDay. rewrite Hlocal.
  assert (Hidx : monthIndex (LocalTime now) = 12 * y + m) by reflexivity.
  fold d. rewrite Hidx.
  repeat split.
  - destruct (Z.leb_spec d (daysInMonth (y + (m - 1) / 12) ((m - 1) mod 12)));
      [| lia]. lia.
  - destruct (Z.leb_spec d (daysInMonth (y + (m - 1) / 12) ((m - 1) mod 12)));
      [| lia]. tauto.
  - destruct (Z.leb_spec d (daysInMonth (y + (m - 1) / 12) ((m - 1) mod 12)));
      [lia |]. lia.
  - destruct (Z.leb_spec d (daysInMonth (y + (m - 1) / 12) ((m - 1) mod 12)));
      [lia |]. tauto.
  - intros E.
    destruct (Z.leb_spec d (daysInMonth (y + (m - 1) / 12) ((m - 1) mod 12)));
      lia.
  - now apply TimeWithinDay_MakeDate.
Qed.

End DateExtras.

(** ** More on calculateNextRecurringDate *)

Section NextDateExtras.

Context `{Runtime}.

Lemma occurrence_days (i : string) (n : Z) (start : Z) (k : nat) :
  (forall now, calculateNextRecurringDate now (Some i) = now + n * msPerDay) ->
  occurrence (Some i) start k = start + n * Z.of_nat k * msPerDay.
Proof.
  intros Hstep. induction k as [| k IH].
  - rewrite occurrence_zero. lia.
  - rewrite occurrence_succ, Hstep, IH. lia.
Qed.

(** X: the distance in time between a date and the next.  [k] DAILY steps
    move an instant by exactly [k] days of 24 hours and [k] WEEKLY steps
    by [7 k] days; a MONTHLY step moves it by the length of the month it
    starts in, 28 to 31 days, and a YEARLY step by 365 or 366 days, the
    latter when a 29 February lies between the two dates. *)
Theorem next_date_distance (start now : Z) (k : nat) :
  occurrence (Some "DAILY"%string) start k = start + 1 * Z.of_nat k * msPerDay
  /\ occurrence (Some "WEEKLY"%string) start k
     = start + 7 * Z.of_nat k * msPerDay
  /\ (calculateNextRecurringDate now (Some "MONTHLY"%string)
      = now + daysInMonth (getFullYear now) (getMonth now) * msPerDay
      /\ 28 <= daysInMonth (getFullYear now) (getMonth now) <= 31)
  /\ (calculateNextRecurringDate now (Some "YEARLY"%string)
      = now + (if getMonth now <? 2 then DaysInYear (getFullYear now)
               else DaysInYear (getFullYear now + 1)) * msPerDay
      /\ 365 <= (if getMonth now <? 2 then DaysInYear (getFullYear now)
                 else DaysInYear (getFullYear now + 1)) <= 366).
Proof.
  split; [| split; [| split]].
  - apply occurrence_days. intros t. rewrite calculate_daily. apply setDate_add.
  - apply occurrence_days. intros t. rewrite calculate_weekly.
    apply setDate_add.
  - split; [rewrite calculate_monthly; apply setMonth_succ |].
    apply daysInMonth_range.
  - split; [rewrite calculate_yearly; apply setFullYear_succ |].
    destruct (getMonth now <? 2); apply DaysInYear_pos.
Qed.





End NextDateExtras.


(** ** More on processRecurringTransaction and the trigger *)

Lemma find_none_iff {A} (p : A -> bool) (l : list A) :
  find p l = None <-> forall x, In x l -> p x = false.
Proof.
  split; [apply find_none |].
  induction l as [| a l IH]; cbn; intros Hall; [reflexivity |].
  rewrite (Hall a (or_introl eq_refl)). apply IH. auto.
Qed.

Lemma find_map_same {A} (p : A -> bool) (f : A -> A) (l : list A) :
  (forall x, p (f x) = p x) ->
  find p (map f l) = option_map f (find p l).
Proof.
  intros Hp. induction l as [| a l IH]; cbn; [reflexivity |].
  rewrite Hp. destruct (p a); [reflexivity | exact IH].
Qed.

Lemma find_app_some {A} (p : A -> bool) (l l' : list A) (x : A) :
  find p l = Some x -> find p (l ++ l') = Some x.
Proof.
  induction l as [| a l IH]; cbn; [discriminate |].
  destruct (p a); auto.
Qed.

Lemma NoDup_map_eq {A B} (f : A -> B) (l : list A) (a b : A) :
  NoDup (map f l) -> In a l -> In b l -> f a = f b -> a = b.
Proof.
  induction l as [| c l IH]; cbn; [contradiction |].
  intros Hn Ha Hb E. inversion Hn as [| ? ? Hnotin Hrest]; subst.
  destruct Ha as [-> | Ha], Hb as [-> | Hb]; auto.
  - exfalso. apply Hnotin. rewrite E. now apply in_map.
  - exfalso. apply Hnotin. rewrite <- E. now apply in_map.
Qed.

Section ProcessingExtras.

Context `{Runtime}.

Lemma findUnique_named event s :
  findUnique (transactionId event) (userId event) s
  = Some (find (named event) (transactions s), s).
Proof. reflexivity. Qed.

Lemma named_markProcessed event last next t :
  named event (markProcessed last next t) = named event t.
Proof. reflexivity. Qed.

Lemma process_not_found event now newId s :
  find (named event) (transactions s) = None ->
  processRecurringTransaction event now newId s = Some (tt, s).
Proof.
  intros Hf. unfold processRecurringTransaction.
  destruct (emptyString (transactionId event) || emptyString (userId event));
    [reflexivity |].
  unfold bind at 1. rewrite findUnique_named, Hf. reflexivity.
Qed.

Lemma process_not_due event now newId s transaction :
  find (named event) (transactions s) = Some transaction ->
  isTransactionDue transaction now = false ->
  processRecurringTransaction event now newId s = Some (tt, s).
Proof.
  intros Hf Hdue. unfold processRecurringTransaction.
  destruct (emptyString (transactionId event) || emptyString (userId event));
    [reflexivity |].
  unfold bind at 1. rewrite findUnique_named, Hf, Hdue. reflexivity.
Qed.

(** X: events that change nothing.  A run returns without an error and
    leaves the store as it is when the event lacks an identifier, when no
    stored transaction bears both the transaction identifier and the user
    identifier of the event (so an event that names the transaction of
    another user does nothing), and when the transaction it names is not
    due. *)
Theorem processRecurringTransaction_skips (event : Event) (now : Z)
  (newId : string) (s : Store) :
  emptyString (transactionId event) = true
  \/ emptyString (userId event) = true
  \/ (forall t, In t (transactions s) ->
                t_id t = transactionId event -> t_userId t <> userId event)
  \/ (exists transaction,
        find (named event) (transactions s) = Some transaction
        /\ isTransactionDue transaction now = false) ->
  processRecurringTransaction event now newId s = Some (tt, s).
Proof.
  intros [He | [He | [Hnone | (transaction & Hf & Hdue)]]].
  - unfold processRecurringTransaction. now rewrite He.
  - unfold processRecurringTransaction. rewrite He, orb_true_r. reflexivity.
  - apply process_not_found. apply find_none_iff. intros t Hin.
    unfold named. destruct (String.eqb_spec (t_id t) (transactionId event))
      as [Eid | _]; [| reflexivity].
    cbn [andb]. apply String.eqb_neq. now apply Hnone.
  - now apply process_not_due with transaction.
Qed.

(** The template row in the store after the three writes. *)
Lemma find_committed event transaction now newId s :
  find (named event) (transactions s) = Some transaction ->
  find (named event) (transactions (committed transaction now newId s))
  = Some (markProcessed now
            (calculateNextRecurringDate now (t_recurringInterval transaction))
            transaction).
Proof.
  intros Hf. unfold committed. cbn [transactions].
  rewrite find_map_same.
  - rewrite (find_app_some _ _ _ _ Hf). cbn [option_map].
    now rewrite String.eqb_refl.
  - intros t. destruct (String.eqb (t_id t) (t_id transaction)); reflexivity.
Qed.

Lemma isTransactionDue_markProcessed last next t now' :
  isTransactionDue (markProcessed last next t) now' = (next <=? now').
Proof. reflexivity. Qed.

Lemma dueWhere_markProcessed last next t now' :
  dueWhere now' (markProcessed last next t)
  = t_isRecurring t && String.eqb (t_status t) "COMPLETED" && (next <=? now').
Proof. reflexivity. Qed.

Lemma calculate_wellFormed_lt now interval :
  wellFormedInterval interval ->
  now < calculateNextRecurringDate now interval.
Proof. intros (i & -> & Hin). now apply next_step. Qed.

(** X: no second firing before the next date.  When a due transaction
    with one of the four intervals has been processed at [now], its
    [nextRecurringDate] is after [now]; until that date the due-check and
    the query of the trigger both reject the row, and a run for the same
    event, at any instant before that date and whatever identifier the new
    row would get, returns with the store as the first run left it: a
    repeated or retried event does not book the amount twice. *)
Theorem no_second_firing_before_next_date (event : Event) (now : Z)
  (newId : string) (s : Store) (transaction : Transaction) :
  emptyString (transactionId event) = false ->
  emptyString (userId event) = false ->
  findUnique (transactionId event) (userId event) s
    = Some (Some transaction, s) ->
  isTransactionDue transaction now = true ->
  wellFormedInterval (t_recurringInterval transaction) ->
  existsb (fun u => String.eqb (t_id u) newId) (transactions s) = false ->
  existsb (fun a => String.eqb (a_id a) (t_accountId transaction))
          (accounts s) = true ->
  let next := calculateNextRecurringDate now
                (t_recurringInterval transaction) in
  let processed := markProcessed now next transaction in
  exists s',
    processRecurringTransaction event now newId s = Some (tt, s')
    /\ In processed (transactions s')
    /\ now < next
    /\ forall now', now' < next ->
         isTransactionDue processed now' = false
         /\ dueWhere now' processed = false
         /\ forall newId',
              processRecurringTransaction event now' newId' s'
              = Some (tt, s').
Proof.
  intros He1 He2 Hfind Hdue Hwf Hfresh Hacc next processed.
  assert (Hf : find (named event) (transactions s) = Some transaction).
  { rewrite findUnique_named in Hfind. now injection Hfind. }
  exists (committed transaction now newId s).
  split; [now apply process_due |].
  pose proof (find_committed event transaction now newId s Hf) as Hf'.
  split; [apply find_some in Hf'; apply Hf' |].
  split; [now apply calculate_wellFormed_lt |].
  intros now' Hlt.
  assert (Hleb : (next <=? now') = false) by (apply Z.leb_gt; exact Hlt).
  split; [| split].
  - unfold processed. now rewrite isTransactionDue_markProcessed.
  - unfold processed. rewrite dueWhere_markProcessed, Hleb.
    apply andb_false_r.
  - intros newId'. apply process_not_due with processed; [exact Hf' |].
    unfold processed. now rewrite isTransactionDue_markProcessed.
Qed.

(** X: a malformed interval fires again at once.  When a due transaction
    whose interval is none of the four names has been processed at [now],
    the row is due again from [now] on: the due-check accepts it at every
    instant from [now], the query of the trigger selects it again if it is
    recurring and COMPLETED, and a second run for the same event at the
    same instant books a second ledger entry and moves the balance a
    second time. *)
Theorem malformed_interval_fires_again (event : Event) (now : Z)
  (newId newId2 : string) (s : Store) (transaction : Transaction) :
  emptyString (transactionId event) = false ->
  emptyString (userId event) = false ->
  findUnique (transactionId event) (userId event) s
    = Some (Some transaction, s) ->
  isTransactionDue transaction now = true ->
  ~ wellFormedInterval (t_recurringInterval transaction) ->
  existsb (fun u => String.eqb (t_id u) newId) (transactions s) = false ->
  existsb (fun u => String.eqb (t_id u) newId2) (transactions s) = false ->
  newId2 <> newId ->
  existsb (fun a => String.eqb (a_id a) (t_accountId transaction))
          (accounts s) = true ->
  let processed := markProcessed now now transaction in
  let s1 := committed transaction now newId s in
  processRecurringTransaction event now newId s = Some (tt, s1)
  /\ (forall now', now <= now' ->
        isTransactionDue processed now' = true
        /\ (t_isRecurring transaction = true ->
            t_status transaction = "COMPLETED"%string ->
            dueWhere now' processed = true))
  /\ processRecurringTransaction event now newId2 s1
     = Some (tt, committed processed now newId2 s1)
  /\ List.length (transactions (committed processed now newId2 s1))
     = S (S (List.length (transactions s))).
Proof.
  intros He1 He2 Hfind Hdue Hbad Hfresh Hfresh2 Hne Hacc processed s1.
  assert (Hf : find (named event) (transactions s) = Some transaction).
  { rewrite findUnique_named in Hfind. now injection Hfind. }
  pose proof (calculate_malformed now _ Hbad) as Hnext.
  pose proof (find_committed event transaction now newId s Hf) as Hf'.
  rewrite Hnext in Hf'. fold processed s1 in Hf'.
  split; [now apply process_due |]. split; [| split].
  - intros now' Hle. unfold processed.
    rewrite isTransactionDue_markProcessed, dueWhere_markProcessed.
    assert (Hleb : (now <=? now') = true) by now apply Z.leb_le.
    rewrite Hleb. split; [reflexivity |].
    intros -> ->. reflexivity.
  - apply process_due; auto.
    + rewrite findUnique_named, Hf'. reflexivity.
    + unfold processed. rewrite isTransactionDue_markProcessed.
      apply Z.leb_refl.
    + unfold s1, committed. cbn [transactions].
      apply not_true_is_false. intros Hex.
      apply existsb_exists in Hex as (u & Hu & Hid).
      apply in_map_iff in Hu as (v & <- & Hv).
      assert (Hidv : String.eqb (t_id v) newId2 = true).
      { destruct (String.eqb (t_id v) (t_id transaction)); exact Hid. }
      apply in_app_or in Hv as [Hv | [<- | []]].
      * assert (existsb (fun u => String.eqb (t_id u) newId2)
                  (transactions s) = true)
          by (apply existsb_exists; now exists v).
        congruence.
      * cbn [recurringEntry t_id] in Hidv.
        apply String.eqb_eq in Hidv. congruence.
    + unfold s1, committed. cbn [accounts t_accountId markProcessed processed].
      apply existsb_exists in Hacc as (a & Ha & Hid).
      apply existsb_exists.
      exists (if String.eqb (a_id a) (t_accountId transaction)
              then {| a_id := a_id a;
                      a_balance := increment (a_balance a)
                                     (balanceChange transaction) |}
              else a).
      split.
      * apply in_map_iff. now exists a.
      * rewrite Hid. exact Hid.
  - unfold s1, committed. cbn [transactions].
    rewrite length_map, length_app, length_map, length_app.
    cbn [List.length]. lia.
Qed.

End ProcessingExtras.

Section FiringExtras.

Context `{Runtime}.

Lemma process_due_cases event now newId s transaction :
  emptyString (transactionId event) = false ->
  emptyString (userId event) = false ->
  find (named event) (transactions s) = Some transaction ->
  isTransactionDue transaction now = true ->
  processRecurringTransaction event now newId s = None
  \/ processRecurringTransaction event now newId s
     = Some (tt, committed transaction now newId s).
Proof.
  intros He1 He2 Hf Hdue.
  destruct (existsb (fun u => String.eqb (t_id u) newId) (transactions s))
    eqn:Hfresh;
  [| destruct (existsb (fun a => String.eqb (a_id a) (t_accountId transaction))
                (accounts s)) eqn:Hacc].
  - left. unfold processRecurringTransaction. rewrite He1, He2. cbn [orb].
    unfold bind at 1. rewrite findUnique_named, Hf, Hdue. cbn [negb].
    unfold bind, createTransaction. cbn [t_id recurringEntry].
    now rewrite Hfresh.
  - right. apply process_due; auto. now rewrite findUnique_named, Hf.
  - left. unfold processRecurringTransaction. rewrite He1, He2. cbn [orb].
    unfold bind at 1. rewrite findUnique_named, Hf, Hdue. cbn [negb].
    unfold bind, createTransaction. cbn [t_id recurringEntry].
    rewrite Hfresh. unfold incrementBalance. cbn [transactions accounts].
    now rewrite Hacc.
Qed.

Lemma dueWhere_isTransactionDue now now' t :
  dueWhere now t = true -> now <= now' -> isTransactionDue t now' = true.
Proof.
  intros Hd Hle. apply dueWhere_spec in Hd as (_ & _ & [Hn | (d & Hd & Hdn)]);
    unfold isTransactionDue.
  - now rewrite Hn.
  - destruct (t_lastProcessed t); [| reflexivity].
    rewrite Hd. cbn [newDate]. apply Z.leb_le. lia.
Qed.

(** X: every event of the trigger fires.  In a store whose transactions
    have distinct, non-empty identifiers and non-empty user identifiers,
    each event that the trigger sends at [now] names a stored transaction
    that the query selected, and the due-check of
    processRecurringTransaction accepts that transaction at [now] and at
    every later instant; a run for the event on that store therefore never
    takes an early return: it commits the three writes for that
    transaction, or throws. *)
Theorem triggered_events_fire (now now' : Z) (newId : string) (s s' : Store)
  (events : list Event) (e : Event) :
  NoDup (ids s) ->
  (forall t, In t (transactions s) ->
     emptyString (t_id t) = false /\ emptyString (t_userId t) = false) ->
  triggerRecurringTransactions now s = Some (events, s') ->
  In e events ->
  now <= now' ->
  exists t,
    In t (transactions s)
    /\ e = eventOf t
    /\ dueWhere now t = true
    /\ isTransactionDue t now' = true
    /\ (processRecurringTransaction e now' newId s = None
        \/ processRecurringTransaction e now' newId s
           = Some (tt, committed t now' newId s)).
Proof.
  intros Hnd Hne Htrig Hin Hle.
  unfold triggerRecurringTransactions, bind, fetchRecurringTransactions,
    findMany, ret in Htrig.
  injection Htrig as <- <-.
  apply in_map_iff in Hin as (t & <- & Hsel).
  apply filter_In in Hsel as [Hin Hdue].
  exists t. split; [exact Hin |]. split; [reflexivity |].
  split; [exact Hdue |].
  pose proof (dueWhere_isTransactionDue now now' t Hdue Hle) as Hd.
  split; [exact Hd |].
  destruct (Hne t Hin) as [Hid Huid].
  assert (Hf : find (named (eventOf t)) (transactions s) = Some t).
  { destruct (find (named (eventOf t)) (transactions s)) as [u |] eqn:Hf.
    - apply find_some in Hf as [Hu Hnamed].
      unfold named in Hnamed. cbn [eventOf transactionId userId] in Hnamed.
      apply andb_true_iff in Hnamed as [Eid _].
      apply String.eqb_eq in Eid.
      f_equal. apply (NoDup_map_eq t_id (transactions s)); auto.
    - exfalso. rewrite find_none_iff in Hf. specialize (Hf t Hin).
      unfold named in Hf. cbn [eventOf transactionId userId] in Hf.
      now rewrite !String.eqb_refl in Hf. }
  apply process_due_cases; auto.
Qed.

(** X: what a firing touches.  When the three writes commit, the table of
    transactions afterwards is the table before with the rows that bear
    the identifier of the processed transaction stamped, followed by the
    one new row; every row with another identifier is as it was, and so is
    every account other than the account of the transaction, whose balance
    is incremented by the change; no account is added or removed. *)
Theorem firing_frame (event : Event) (now : Z) (newId : string) (s : Store)
  (transaction : Transaction) :
  emptyString (transactionId event) = false ->
  emptyString (userId event) = false ->
  findUnique (transactionId event) (userId event) s
    = Some (Some transaction, s) ->
  isTransactionDue transaction now = true ->
  existsb (fun u => String.eqb (t_id u) newId) (transactions s) = false ->
  existsb (fun a => String.eqb (a_id a) (t_accountId transaction))
          (accounts s) = true ->
  exists s',
    processRecurringTransaction event now newId s = Some (tt, s')
    /\ transactions s'
       = map (fun t =>
                if String.eqb (t_id t) (t_id transaction)
                then markProcessed now
                       (calculateNextRecurringDate now
                          (t_recurringInterval transaction)) t
                else t) (transactions s)
         ++ [recurringEntry transaction now newId]
    /\ (forall t, In t (transactions s) -> t_id t <> t_id transaction ->
                  In t (transactions s'))
    /\ map a_id (accounts s') = map a_id (accounts s)
    /\ (forall a, In a (accounts s) ->
          (a_id a <> t_accountId transaction -> In a (accounts s'))
          /\ (a_id a = t_accountId transaction ->
              In {| a_id := a_id a;
                    a_balance := increment (a_balance a)
                                   (balanceChange transaction) |}
                 (accounts s'))).
Proof.
  intros He1 He2 Hfind Hdue Hfresh Hacc.
  exists (committed transaction now newId s).
  split; [now apply process_due |].
  assert (Hin : In transaction (transactions s)).
  { unfold findUnique in Hfind. injection Hfind as Hf.
    now apply find_some in Hf. }
  assert (Hnew : String.eqb newId (t_id transaction) = false).
  { apply String.eqb_neq. intros ->.
    pose proof (existsb_id_In _ _ Hin). congruence. }
  assert (Htx : transactions (committed transaction now newId s)
                = map (fun t =>
                         if String.eqb (t_id t) (t_id transaction)
                         then markProcessed now
                                (calculateNextRecurringDate now
                                   (t_recurringInterval transaction)) t
                         else t) (transactions s)
                  ++ [recurringEntry transaction now newId]).
  { unfold committed. cbn [transactions]. rewrite map_app. f_equal.
    cbn [map recurringEntry t_id]. now rewrite Hnew. }
  split; [exact Htx |]. split; [| split].
  - intros t Ht Hid. rewrite Htx. apply in_or_app. left.
    apply in_map_iff. exists t. split; [| exact Ht].
    apply String.eqb_neq in Hid. now rewrite Hid.
  - unfold committed. cbn [accounts]. rewrite map_map. apply map_ext.
    intros a. now destruct (String.eqb (a_id a) (t_accountId transaction)).
  - intros a Ha. unfold committed. cbn [accounts]. split; intros Hid.
    + apply in_map_iff. exists a. split; [| exact Ha].
      apply String.eqb_neq in Hid. now rewrite Hid.
    + apply in_map_iff. exists a. split; [| exact Ha].
      apply String.eqb_eq in Hid. now rewrite Hid.
Qed.

End FiringExtras.

(** ** getMonthlyStats: the figures *)

Section StatsExtras.

Context `{Runtime}.

Lemma fold_addToStats rows : forall stats,
  let result := fold_left addToStats rows stats in
  st_transactionCount result = st_transactionCount stats
  /\ st_totalExpenses result
     = fold_left (fun acc t => (acc + amountValue t)%float)
         (filter isExpense rows) (st_totalExpenses stats)
  /\ st_totalIncome result
     = fold_left (fun acc t => (acc + amountValue t)%float)
         (filter (fun t => negb (isExpense t)) rows) (st_totalIncome stats)
  /\ forall c,
       st_byCategory result c
       = categoryTotal
           (filter (fun t => isExpense t && String.eqb (t_category t) c) rows)
           (st_byCategory stats c).
Proof.
  induction rows as [| t rows IH]; intros stats; cbv zeta.
  - cbn. auto.
  - cbn [fold_left filter].
    destruct (IH (addToStats stats t)) as (Hc & He & Hi & Hb).
    split; [rewrite Hc | split; [rewrite He | split; [rewrite Hi |
      intros c; rewrite Hb]]];
      unfold addToStats, isExpense;
      destruct (String.eqb (t_type t) "EXPENSE") eqn:Et;
      cbn [negb andb fold_left filter st_transactionCount st_totalExpenses
           st_totalIncome st_byCategory]; try reflexivity.
    destruct (String.eqb_spec (t_category t) c) as [-> | Hne].
    + rewrite String.eqb_refl. reflexivity.
    + assert (E : String.eqb c (t_category t) = false)
        by (apply String.eqb_neq; congruence).
      now rewrite E.
Qed.

(** X: the totals of the monthly report.  The count is the number of rows
    reduced; the total of expenses is the sum, in the order of the rows,
    of the amounts of the rows of type EXPENSE and of no other row; every
    other row, whatever its type says, is added to the total of income. *)
Theorem reduceStats_totals (rows : list Transaction) :
  st_transactionCount (reduceStats rows) = List.length rows
  /\ st_totalExpenses (reduceStats rows) = sumAmounts (filter isExpense rows)
  /\ st_totalIncome (reduceStats rows)
     = sumAmounts (filter (fun t => negb (isExpense t)) rows)
  /\ (List.length (filter isExpense rows)
      + List.length (filter (fun t => negb (isExpense t)) rows)
      = List.length rows)%nat.
Proof.
  unfold reduceStats, sumAmounts.
  destruct (fold_addToStats rows
              {| st_totalExpenses := 0%float; st_totalIncome := 0%float;
                 st_byCategory := fun _ => None;
                 st_transactionCount := List.length rows |})
    as (Hc & He & Hi & _).
  repeat split; auto.
  clear Hc He Hi.
  induction rows as [| t rows IH]; cbn [filter]; [reflexivity |].
  destruct (isExpense t); cbn [negb List.length]; lia.
Qed.

Lemma categoryTotal_none rows v :
  categoryTotal rows v = None <-> rows = [] /\ v = None.
Proof.
  unfold categoryTotal. revert v.
  induction rows as [| t rows IH]; intros v; cbn [fold_left].
  - split; [auto | tauto].
  - rewrite IH. split; [intros [_ E]; discriminate | intros [E _]; discriminate].
Qed.

(** X: the expenses by category.  For rows whose categories are none of
    the names that every object inherits, the entry of a category in
    [byCategory] is computed from the EXPENSE rows of that category alone,
    in their order, and is the same as if only those rows had been
    reduced; a category has an entry exactly when some EXPENSE row bears
    it. *)
Theorem byCategory_by_category (rows : list Transaction) (c : string) :
  (forall t, In t rows -> ~ In (t_category t) objectPrototypeKeys) ->
  st_byCategory (reduceStats rows) c
  = categoryTotal
      (filter (fun t => isExpense t && String.eqb (t_category t) c) rows) None
  /\ st_byCategory (reduceStats rows) c
     = st_byCategory
         (reduceStats
            (filter (fun t => isExpense t && String.eqb (t_category t) c) rows))
         c
  /\ (st_byCategory (reduceStats rows) c = None <->
      forall t, In t rows -> isExpense t = true -> t_category t <> c).
Proof.
  intros _.
  set (p := fun t => isExpense t && String.eqb (t_category t) c).
  assert (Hall : forall l, st_byCategory (reduceStats l) c
                           = categoryTotal (filter p l) None).
  { intros l. unfold reduceStats.
    destruct (fold_addToStats l
                {| st_totalExpenses := 0%float; st_totalIncome := 0%float;
                   st_byCategory := fun _ => None;
                   st_transactionCount := List.length l |})
      as (_ & _ & _ & Hb).
    apply Hb. }
  split; [apply Hall |]. split.
  - rewrite (Hall rows), (Hall (filter p rows)). f_equal.
    clear Hall. induction rows as [| t rows IH]; cbn [filter]; [reflexivity |].
    destruct (p t) eqn:E; cbn [filter]; [rewrite E; f_equal |]; exact IH.
  - rewrite Hall, categoryTotal_none. split.
    + intros [Hnil _] t Hin He Hc.
      assert (Hp : In t (filter p rows)).
      { apply filter_In. split; [exact Hin |]. unfold p.
        rewrite He, Hc. apply String.eqb_refl. }
      rewrite Hnil in Hp. exact Hp.
    + intros Hno. split; [| reflexivity].
      destruct (filter p rows) as [| t l] eqn:E; [reflexivity |].
      exfalso.
      assert (Hp : In t (filter p rows)) by (rewrite E; now left).
      apply filter_In in Hp as [Hin Hp]. unfold p in Hp.
      apply andb_true_iff in Hp as [He Hc]. apply String.eqb_eq in Hc.
      exact (Hno t Hin He Hc).
Qed.

End StatsExtras.

(** ** checkBudgetAlerts: the loop *)

Section BudgetLoop.

Context `{Runtime}.

Variable dbSum : list Decimal -> option Decimal.
Variable fixed1 : float -> float.

Local Abbreviation run := (checkBudgetAlerts dbSum fixed1).
Local Abbreviation turn := (checkBudget dbSum fixed1).
Local Abbreviation alerted := (alerts dbSum).

Lemma turn_quiet ledger now acc r :
  alerted ledger now r = false -> turn ledger now acc r = Returns acc.
Proof.
  unfold alerts, checkBudget.
  destruct (br_defaultAccounts r) as [| [accountId accountName] rest];
    [reflexivity |].
  destruct (br_userEmail r) as [email |]; [| reflexivity].
  destruct (emptyString email); cbn [negb andb]; [reflexivity |].
  now intros ->.
Qed.

Lemma turn_throws ledger now acc r :
  alerted ledger now r = true -> turn ledger now acc r = Throws.
Proof.
  unfold alerts, checkBudget.
  destruct (br_defaultAccounts r) as [| [accountId accountName] rest];
    [discriminate |].
  destruct (br_userEmail r) as [email |]; [| discriminate].
  destruct (emptyString email); cbn [negb andb]; [discriminate |].
  now intros ->.
Qed.

Lemma run_quiet ledger now rows acc :
  (forall r, In r rows -> alerted ledger now r = false) ->
  runBudgets dbSum fixed1 ledger now rows acc = Completed (fst acc) (snd acc).
Proof.
  induction rows as [| r rows IH]; intros Hq; cbn [runBudgets];
    [reflexivity |].
  rewrite turn_quiet by (apply Hq; now left).
  apply IH. intros r' Hr'. apply Hq. now right.
Qed.

Lemma run_fails ledger now rows acc :
  (exists r, In r rows /\ alerted ledger now r = true) ->
  runBudgets dbSum fixed1 ledger now rows acc = Failed (fst acc) (snd acc).
Proof.
  induction rows as [| r rows IH]; intros (r0 & Hin & Ha); [destruct Hin |].
  cbn [runBudgets]. destruct (alerted ledger now r) eqn:E.
  - now rewrite turn_throws.
  - rewrite turn_quiet by exact E. apply IH.
    destruct Hin as [-> | Hin]; [congruence |]. now exists r0.
Qed.

(** A row whose alert was sent in the calendar month of [now] does not
    meet the condition, whatever has been spent. *)
Lemma alerted_same_month ledger now r last :
  b_lastAlertSent (br_budget r) = Some last ->
  calendarMonth last = calendarMonth now ->
  alerted ledger now r = false.
Proof.
  intros Hl Hsame. unfold alerts.
  destruct (br_defaultAccounts r) as [| [accountId accountName] rest];
    [reflexivity |].
  destruct (br_userEmail r) as [email |]; [| reflexivity].
  unfold shouldAlert. rewrite Hl. cbn [newDate].
  assert (E : isNewMonth last now = false) by now apply isNewMonth_false.
  rewrite E, !andb_false_r. reflexivity.
Qed.

(** X: a run of the loop never alerts.  A run sends no mail and changes no
    budget.  It comes to its end when no budget that has a default account
    and a non-empty e-mail address meets the condition of the alert;
    otherwise it stops with the TypeError of [budgetAmount.toFixed(1)] at
    the first budget that does, before [sendEmail] and
    [db.budget.update].  A budget without a default account, without an
    address, or alerted in the calendar month of [now] does not meet the
    condition. *)
Theorem checkBudgetAlerts_never_alerts (ledger : list Transaction) (now : Z)
  (table : list BudgetRow) :
  (run ledger now table = Completed [] table
   \/ run ledger now table = Failed [] table)
  /\ (run ledger now table = Failed [] table <->
      exists r, In r table /\ alerted ledger now r = true)
  /\ (run ledger now table = Completed [] table <->
      forall r, In r table -> alerted ledger now r = false)
  /\ (forall r,
        br_defaultAccounts r = []
        \/ br_userEmail r = None
        \/ br_userEmail r = Some EmptyString
        \/ (exists last, b_lastAlertSent (br_budget r) = Some last
                         /\ calendarMonth last = calendarMonth now) ->
        alerted ledger now r = false).
Proof.
  unfold checkBudgetAlerts.
  assert (Hcase : (exists r, In r table /\ alerted ledger now r = true)
                  \/ (forall r, In r table -> alerted ledger now r = false)).
  { destruct (existsb (alerted ledger now) table) eqn:E.
    - left. now apply existsb_exists.
    - right. intros r Hin. destruct (alerted ledger now r) eqn:Ea; auto.
      assert (existsb (alerted ledger now) table = true)
        by (apply existsb_exists; now exists r).
      congruence. }
  split; [| split; [| split]].
  - destruct Hcase as [Hex | Hall].
    + right. now rewrite (run_fails ledger now table ([], table) Hex).
    + left. now rewrite (run_quiet ledger now table ([], table) Hall).
  - split.
    + intros Hf. destruct Hcase as [Hex | Hall]; [exact Hex |].
      rewrite (run_quiet ledger now table ([], table) Hall) in Hf.
      discriminate Hf.
    + intros Hex. now rewrite (run_fails ledger now table ([], table) Hex).
  - split.
    + intros Hc. destruct Hcase as [Hex | Hall]; [| exact Hall].
      rewrite (run_fails ledger now table ([], table) Hex) in Hc.
      discriminate Hc.
    + intros Hall. now rewrite (run_quiet ledger now table ([], table) Hall).
  - intros r [Hd | [He | [He | (last & Hl' & Hsame)]]].
    + unfold alerts. now rewrite Hd.
    + unfold alerts. rewrite He.
      now destruct (br_defaultAccounts r) as [| [? ?] ?].
    + unfold alerts. rewrite He.
      now destruct (br_defaultAccounts r) as [| [? ?] ?].
    + now apply alerted_same_month with last.
Qed.

End BudgetLoop.

(** ** The further properties at concrete inputs *)

Lemma getMonthlyStats_rows_witness :
  exists rows,
    @getMonthlyStats utcRuntime "u1" 1707955200000 febStore
    = Some (reduceStats rows, febStore)
    /\ In (febRow "f2" 1709164800000) rows
    /\ ~ In (febRow "f3" 1709208000000) rows
    /\ ~ In (febRow "f4" 1709251200000) rows.
Proof.
  assert (Hy : ~ (0 <= @getFullYear utcRuntime 1707955200000 <= 99)).
  { change (@getFullYear utcRuntime 1707955200000) with 2024. lia. }
  destruct (@getMonthlyStats_rows utcRuntime "u1" 1707955200000 febStore Hy)
    as (rows & Hrun & Hrows).
  exists rows. split; [exact Hrun |]. split; [| split].
  - apply Hrows. split; [right; left; reflexivity |].
    repeat split; try reflexivity. right. reflexivity.
  - intros Hin. apply Hrows in Hin as (_ & _ & _ & _ & [Hlt | Htod]).
    + vm_compute in Hlt. discriminate Hlt.
    + vm_compute in Htod. discriminate Htod.
  - intros Hin. apply Hrows in Hin as (_ & _ & _ & Hm & _).
    vm_compute in Hm. discriminate Hm.
Defined.

Lemma processRecurringTransaction_skips_witness :
  @processRecurringTransaction utcRuntime
    {| transactionId := "t2"; userId := "u9" |} 1709251200000 "n1" gymStore
  = Some (tt, gymStore).
Proof.
  apply (@processRecurringTransaction_skips utcRuntime).
  right. right. left. intros t [<- | []] _. cbn. discriminate.
Defined.

Lemma gym_wellFormed : wellFormedInterval (t_recurringInterval gym).
Proof. exists "MONTHLY"%string. split; [reflexivity | cbn; tauto]. Defined.

Lemma no_second_firing_witness :
  exists s',
    @processRecurringTransaction utcRuntime (eventOf gym) 1709251200000 "n1"
      gymStore = Some (tt, s')
    /\ forall newId',
         @processRecurringTransaction utcRuntime (eventOf gym) 1711929599999
           newId' s' = Some (tt, s').
Proof.
  destruct (@no_second_firing_before_next_date utcRuntime (eventOf gym)
              1709251200000 "n1" gymStore gym
              eq_refl eq_refl eq_refl eq_refl gym_wellFormed eq_refl eq_refl)
    as (s' & Hrun & _ & _ & Hlater).
  exists s'. split; [exact Hrun |].
  apply (Hlater 1711929599999). reflexivity.
Defined.

Lemma rent_malformed : ~ wellFormedInterval (t_recurringInterval rent).
Proof.
  intros (i & Hi & Hin). injection Hi as <-. cbn in Hin.
  repeat (destruct Hin as [Hin | Hin]; [discriminate |]). exact Hin.
Defined.

Lemma malformed_interval_fires_again_witness :
  List.length
    (transactions
       (committed (markProcessed 1709251200000 1709251200000 rent)
          1709251200000 "n2"
          (committed rent 1709251200000 "n1" rentStore)))
  = 3%nat
  /\ map a_balance
         (accounts
            (committed (markProcessed 1709251200000 1709251200000 rent)
               1709251200000 "n2"
               (committed rent 1709251200000 "n1" rentStore)))
     = [300%float].
Proof.
  split; [| reflexivity].
  apply (@malformed_interval_fires_again utcRuntime rentEvent 1709251200000
           "n1" "n2" rentStore rent);
    try reflexivity.
  - exact rent_malformed.
  - discriminate.
Defined.

Lemma triggered_events_fire_witness :
  exists t,
    In t (transactions gymStore)
    /\ eventOf gym = eventOf t
    /\ dueWhere 1709251200000 t = true
    /\ isTransactionDue t 1709337600000 = true
    /\ (@processRecurringTransaction utcRuntime (eventOf gym) 1709337600000
          "n1" gymStore = None
        \/ @processRecurringTransaction utcRuntime (eventOf gym) 1709337600000
             "n1" gymStore
           = Some (tt, committed t 1709337600000 "n1" gymStore)).
Proof.
  apply (@triggered_events_fire utcRuntime 1709251200000 1709337600000 "n1"
           gymStore gymStore [eventOf gym] (eventOf gym)).
  - repeat constructor. intros [].
  - intros t [<- | []]. split; reflexivity.
  - reflexivity.
  - left. reflexivity.
  - lia.
Defined.

Lemma firing_frame_witness :
  exists s',
    @processRecurringTransaction utcRuntime (eventOf gym) 1709251200000 "n1"
      gymStore = Some (tt, s')
    /\ map a_id (accounts s') = map a_id (accounts gymStore).
Proof.
  destruct (@firing_frame utcRuntime (eventOf gym) 1709251200000 "n1"
              gymStore gym eq_refl eq_refl eq_refl eq_refl eq_refl eq_refl)
    as (s' & Hrun & _ & _ & Hids & _).
  exists s'. split; [exact Hrun | exact Hids].
Defined.

Lemma byCategory_witness :
  st_byCategory (@reduceStats utcRuntime [gym; rent; gym]) "health"%string
  = Some 200%float
  /\ (st_byCategory (@reduceStats utcRuntime [gym; rent; gym]) "travel"%string = None
      <-> forall t, In t [gym; rent; gym] -> isExpense t = true ->
                    t_category t <> "travel"%string).
Proof.
  split; [reflexivity |].
  apply (@byCategory_by_category utcRuntime [gym; rent; gym] "travel"%string).
  intros t Hin Hkey.
  assert (Hc : t_category t = "health"%string \/ t_category t = "housing"%string).
  { destruct Hin as [<- | [<- | [<- | []]]]; [left | right | left]; reflexivity. }
  cbn in Hkey.
  destruct Hc as [Hc | Hc]; rewrite Hc in Hkey;
    repeat (destruct Hkey as [Hkey | Hkey]; [discriminate |]); exact Hkey.
Defined.
